(** * Roomba Cleanup: the game-state engine of [roomba_game.py]

    A shallow embedding of [RoombaCleanupGame]: the grid model, key handling
    with clamped movement, tile resolution, the hazard ("poop") spawn tick,
    the win/loss flags and the restart path.  The game itself comes first;
    the status line, the canvas and the spawn timer follow in [Widgets].

    Randomness is made explicit.  Every call into [random] takes the raw
    value the generator delivers as an argument: [randbelow] reduces it to
    the requested range, [shuffle] is the Fisher-Yates loop of
    [random.shuffle], [random_choice] indexes the sequence. *)

From Stdlib Require Import Ascii.
From stdpp Require Import gmap strings list pretty.

Local Open Scope Z_scope.

(** ** Exceptions *)

Inductive exn := ValueError | IndexError | KeyError.

Inductive result (A : Type) :=
  | Ok (a : A)
  | Raise (e : exn).
Arguments Ok {A} a.
Arguments Raise {A} e.

Definition rbind {A B} (m : result A) (k : A → result B) : result B :=
  match m with
  | Ok a => k a
  | Raise e => Raise e
  end.

Notation "'let!' x := m 'in' k" := (rbind m (λ x, k))
  (at level 10, x name, m at level 100, k at level 200, only parsing).

(** ** Point: the frozen dataclass *)

Record Point := mkPoint { x : Z; y : Z }.

#[global] Instance Point_eq_dec : EqDecision Point.
Proof. solve_decision. Defined.

#[global] Program Instance Point_countable : Countable Point :=
  inj_countable' (λ p, (x p, y p)) (λ q, mkPoint q.1 q.2) _.
Next Obligation. by intros []. Qed.

(** ** Class constants *)

Record Config := mkConfig {
  GRID_WIDTH : Z;
  GRID_HEIGHT : Z;
  STARTING_TRASH : Z
}.

(** The values the class body assigns. *)
Definition class_config : Config :=
  {| GRID_WIDTH := 14; GRID_HEIGHT := 14; STARTING_TRASH := 24 |}.

(** ** Instance attributes *)

Record Game := mkGame {
  player : Point;
  trash : gset Point;
  poop : gset Point;
  game_over : bool;
  victory : bool
}.

Definition set_player (p : Point) (s : Game) : Game :=
  mkGame p (trash s) (poop s) (game_over s) (victory s).
Definition set_trash (t : gset Point) (s : Game) : Game :=
  mkGame (player s) t (poop s) (game_over s) (victory s).
Definition set_poop (h : gset Point) (s : Game) : Game :=
  mkGame (player s) (trash s) h (game_over s) (victory s).
Definition set_game_over (b : bool) (s : Game) : Game :=
  mkGame (player s) (trash s) (poop s) b (victory s).
Definition set_victory (b : bool) (s : Game) : Game :=
  mkGame (player s) (trash s) (poop s) (game_over s) b.

(** ** Python and [random] primitives *)

(** [range(n)]: empty when [n <= 0]. *)
Definition range (n : Z) : list Z := seqZ 0 n.

(** [l.remove(x)]: drops the first occurrence, [ValueError] when absent. *)
Fixpoint py_list_remove {A} `{EqDecision A} (x : A) (l : list A)
  : result (list A) :=
  match l with
  | [] => Raise ValueError
  | y :: l' =>
      if decide (x = y) then Ok l'
      else let! l'' := py_list_remove x l' in Ok (y :: l'')
  end.

(** [l[:k]]: a negative bound counts from the end, and the slice never
    raises, whatever [k]. *)
Definition slice_to {A} (k : Z) (l : list A) : list A :=
  if k <? 0 then take (Z.to_nat (Z.of_nat (length l) + k)) l
  else take (Z.to_nat k) l.

(** [s.remove(x)] on a set: [KeyError] when absent. *)
Definition py_set_remove (x : Point) (s : gset Point) : result (gset Point) :=
  if decide (x ∈ s) then Ok (s ∖ {[x]}) else Raise KeyError.

(** [Random._randbelow(n)] on the raw value [r]. *)
Definition randbelow (r n : nat) : nat := (r mod n)%nat.

(** [x[i], x[j] = x[j], x[i]]: the right-hand side is read first, then
    [x[i]] and [x[j]] are stored in that order.  The loop of [shuffle] only
    produces indices inside the list. *)
Definition swap {A} (i j : nat) (l : list A) : list A :=
  match l !! i, l !! j with
  | Some a, Some b => <[j := a]> (<[i := b]> l)
  | _, _ => l
  end.

(** [for i in reversed(range(1, len(x))): j = randbelow(i + 1); swap]:
    [rnd i] is the raw value drawn in the iteration with index [i]. *)
Fixpoint shuffle_loop {A} (rnd : nat → nat) (i : nat) (l : list A) : list A :=
  match i with
  | O => l
  | S i' => shuffle_loop rnd i' (swap i (randbelow (rnd i) (i + 1)) l)
  end.

Definition shuffle {A} (rnd : nat → nat) (l : list A) : list A :=
  shuffle_loop rnd (length l - 1)%nat l.

(** [random.choice(seq)]: [seq[randbelow(len(seq))]], [IndexError] on an
    empty sequence. *)
Definition random_choice {A} (r : nat) (seq : list A) : result A :=
  match seq !! randbelow r (length seq) with
  | Some a => Ok a
  | None => Raise IndexError
  end.

(** [str.lower()] on the ASCII key names Tk delivers. *)
Definition lower_ascii (c : ascii) : ascii :=
  let n := nat_of_ascii c in
  if ((65 <=? n) && (n <=? 90))%nat then ascii_of_nat (n + 32) else c.

Fixpoint lower (s : string) : string :=
  match s with
  | EmptyString => EmptyString
  | String c s' => String (lower_ascii c) (lower s')
  end.

(** ** The game *)

Section Game.
Variable cfg : Config.

Abbreviation GW := (GRID_WIDTH cfg).
Abbreviation GH := (GRID_HEIGHT cfg).

(** [[Point(x, y) for x in range(GW) for y in range(GH)]] *)
Definition grid_points : list Point :=
  x ← range GW; y ← range GH; [mkPoint x y].

Definition in_grid (p : Point) : Prop :=
  0 ≤ x p < GW ∧ 0 ≤ y p < GH.

(** Number of grid cells, [len] of the comprehension above. *)
Definition cells : nat := (Z.to_nat GW * Z.to_nat GH)%nat.

Definition center : Point := mkPoint (GW `div` 2) (GH `div` 2).

Definition populate_trash (rnd : nat → nat) (s : Game) : result Game :=
  let available := grid_points in
  let! available := py_list_remove (player s) available in
  let available := shuffle rnd available in
  Ok (set_trash (list_to_set (slice_to (STARTING_TRASH cfg) available)) s).

Definition trigger_game_over (s : Game) : Game :=
  set_victory false (set_game_over true s).

Definition resolve_player_tile (s : Game) : result Game :=
  if decide (player s ∈ poop s) then Ok (trigger_game_over s)
  else if decide (player s ∈ trash s) then
    let! t := py_set_remove (player s) (trash s) in
    let s := set_trash t s in
    if decide (trash s = ∅) then Ok (set_game_over true (set_victory true s))
    else Ok s
  else Ok s.

Definition restart (rnd : nat → nat) (s : Game) : result Game :=
  let s := set_player center s in
  let s := set_trash ∅ s in
  let s := set_poop ∅ s in
  let s := set_game_over false s in
  let s := set_victory false s in
  populate_trash rnd s.

(** The [movement] dict; [movement.get] is [None] on any other key. *)
Definition movement (keysym : string) : option Point :=
  if decide (keysym = "Up")%string then Some (mkPoint 0 (-1))
  else if decide (keysym = "Down")%string then Some (mkPoint 0 1)
  else if decide (keysym = "Left")%string then Some (mkPoint (-1) 0)
  else if decide (keysym = "Right")%string then Some (mkPoint 1 0)
  else if decide (keysym = "w")%string then Some (mkPoint 0 (-1))
  else if decide (keysym = "s")%string then Some (mkPoint 0 1)
  else if decide (keysym = "a")%string then Some (mkPoint (-1) 0)
  else if decide (keysym = "d")%string then Some (mkPoint 1 0)
  else None.

Definition next_pos (p delta : Point) : Point :=
  mkPoint (Z.min (Z.max (x p + x delta) 0) (GW - 1))
          (Z.min (Z.max (y p + y delta) 0) (GH - 1)).

(** [rnd] feeds the shuffle of a restart; a move draws nothing.  A
    [Point] instance is always truthy, so [not delta] holds exactly for
    [None]. *)
Definition handle_keypress (keysym : string) (rnd : nat → nat) (s : Game)
  : result Game :=
  if game_over s then
    if decide (lower keysym = "r")%string then restart rnd s else Ok s
  else
    match movement keysym with
    | None => Ok s
    | Some delta =>
        resolve_player_tile (set_player (next_pos (player s) delta) s)
    end.

(** The [candidates] comprehension of [poop_spawn_tick]. *)
Definition candidates (s : Game) : list Point :=
  filter (λ p, (p ∉ poop s) ∧ (p ∉ trash s)) grid_points.

(** [roll] is the outcome of [random.random() < POOP_SPAWN_CHANCE], [r]
    the raw value behind [random.choice]. *)
Definition poop_spawn_tick (roll : bool) (r : nat) (s : Game) : result Game :=
  if negb (game_over s) && roll then
    let candidates := candidates s in
    match candidates with
    | [] => Ok s
    | _ :: _ =>
        let! spawned := random_choice r candidates in
        let s := set_poop ({[spawned]} ∪ poop s) s in
        if decide (spawned = player s) then Ok (trigger_game_over s)
        else Ok s
    end
  else Ok s.

(** [__init__] *)
Definition init (rnd : nat → nat) : result Game :=
  populate_trash rnd (mkGame center ∅ ∅ false false).

(** States the running program can be in: construction, then key
    presses and spawn ticks in any order.  The last rule also admits a call
    of [restart] in any state, not only behind the R key of a finished
    game. *)
Inductive reachable : Game → Prop :=
  | reach_init rnd s :
      init rnd = Ok s → reachable s
  | reach_key keysym rnd s s' :
      reachable s → handle_keypress keysym rnd s = Ok s' → reachable s'
  | reach_tick roll r s s' :
      reachable s → poop_spawn_tick roll r s = Ok s' → reachable s'
  | reach_restart rnd s s' :
      reachable s → restart rnd s = Ok s' → reachable s'.

End Game.

(** ** The event loop

    [mainloop] delivers key presses and timer ticks one at a time; [run]
    folds the two handlers over a trace of such events. *)

Inductive event :=
  | KeyPress (keysym : string) (rnd : nat → nat)
  | SpawnTick (roll : bool) (r : nat).

Definition step (cfg : Config) (e : event) (s : Game) : result Game :=
  match e with
  | KeyPress keysym rnd => handle_keypress cfg keysym rnd s
  | SpawnTick roll r => poop_spawn_tick cfg roll r s
  end.

Fixpoint run (cfg : Config) (es : list event) (s : Game) : result Game :=
  match es with
  | [] => Ok s
  | e :: es' => let! s' := step cfg e s in run cfg es' s'
  end.

Definition play (cfg : Config) (rnd : nat → nat) (es : list event)
  : result Game :=
  let! s := init cfg rnd in run cfg es s.

(** Events that are a movement key or a timer tick. *)
Definition is_move_or_tick (e : event) : Prop :=
  match e with
  | KeyPress keysym _ => is_Some (movement keysym)
  | SpawnTick _ _ => True
  end.

(** ** Key names and clamping *)

(** The four deltas of the [movement] dict. *)
Definition move_deltas : list Point :=
  [mkPoint 0 (-1); mkPoint 0 1; mkPoint (-1) 0; mkPoint 1 0].

(** [clamp(v, lo, hi)] as the design document uses it, to compare with the
    [min(max(v, lo), hi)] of [handle_keypress]. *)
Definition clamp (v lo hi : Z) : Z :=
  if v <? lo then lo else if hi <? v then hi else v.

(** ** Sample games on small boards *)

Definition no_entropy : nat → nat := λ _, 0%nat.

(** A 3x3 board with one piece of trash; with [no_entropy] the shuffle puts
    cell (0,1) first. *)
Definition board33 : Config := mkConfig 3 3 1.

Definition start33 : Game :=
  mkGame (mkPoint 1 1) {[mkPoint 0 1]} ∅ false false.

(** The free cells of [start33] are listed column by column; index 2 is
    the cell above the robot and index 3 the robot's own. *)
Definition poop_above33 : Game :=
  mkGame (mkPoint 1 1) {[mkPoint 0 1]} {[mkPoint 1 0]} false false.

Definition lost33 : Game :=
  mkGame (mkPoint 1 0) {[mkPoint 0 1]} {[mkPoint 1 0]} true false.

(** The robot in the top-left corner of the 3x3 board. *)
Definition corner33 : Game :=
  mkGame (mkPoint 0 0) {[mkPoint 0 1]} ∅ false false.

(** A 2x2 board asked to hold four pieces of trash. *)
Definition board22 : Config := mkConfig 2 2 4.


(** A 3x3 board without any trash. *)
Definition board30 : Config := mkConfig 3 3 0.

Definition start30 : Game :=
  mkGame (mkPoint 1 1) ∅ ∅ false false.

(** The 3x3 game after the robot has stepped left onto the only trash. *)
Definition won33 : Game :=
  mkGame (mkPoint 0 1) ∅ ∅ true true.

(** ** The widgets: status line, canvas and spawn timer *)

Definition CELL_SIZE : Z := 38.
Definition POOP_SPAWN_INTERVAL_MS : Z := 1300.

Definition COLOR_BG : string := "#f3f4f6".
Definition COLOR_GRID : string := "#d1d5db".
Definition COLOR_ROOMBA : string := "#2563eb".
Definition COLOR_TRASH : string := "#f59e0b".
Definition COLOR_POOP : string := "#7c3f00".

(** A Tk font tuple: family, size and, when given, weight. *)
Definition font : Type := string * Z * option string.

(** What [create_rectangle] and [create_text] put on the canvas; [fill] of
    a text item is [None] when the call leaves it out. *)
Inductive item :=
  | Rectangle (x1 y1 x2 y2 : Z) (fill outline : string)
  | Text (tx ty : Z) (text : string) (fill : option string) (fnt : font).

(** The part of [self] the widgets add to the game: the text of
    [status_var], the canvas items in creation order (later items lie on
    top), and the delays of the [root.after] callbacks still pending. *)
Record App := mkApp {
  game : Game;
  status_var : string;
  canvas : list item;
  timers : list Z
}.

Definition set_game (g : Game) (a : App) : App :=
  mkApp g (status_var a) (canvas a) (timers a).
Definition set_status_var (t : string) (a : App) : App :=
  mkApp (game a) t (canvas a) (timers a).
Definition set_canvas (c : list item) (a : App) : App :=
  mkApp (game a) (status_var a) c (timers a).
Definition set_timers (t : list Z) (a : App) : App :=
  mkApp (game a) (status_var a) (canvas a) t.

(** [str(n)] of a length, as the f-string formats it. *)
Definition str (n : nat) : string := pretty n.

(** The order in which one [for] loop walks a set.  Python takes it from
    the hash table behind the set, which depends on the elements and on the
    insertions and deletions that built it; all the program can rely on is
    that every element comes up exactly once.  Each loop of each call of
    [draw] therefore gets a walk of its own. *)
Record walk := mkWalk {
  walk_of :> gset Point → list Point;
  walk_perm : ∀ X, walk_of X ≡ₚ elements X
}.

(** One possible walk: the order of [elements]. *)
Definition elements_walk : walk :=
  mkWalk elements (λ X, Permutation_refl (elements X)).

(** Another one: the same order backwards. *)
Definition reverse_walk : walk :=
  mkWalk (λ X, reverse (elements X)) (λ X, reverse_Permutation (elements X)).

Module Widgets.
Section Widgets.
Variable cfg : Config.

Definition update_status (a : App) : App :=
  if game_over (game a) then
    if victory (game a) then
      set_status_var "You cleaned everything! Press R to play again." a
    else
      set_status_var "You hit poop. Game over! Press R to restart." a
  else
    set_status_var
      ("Trash remaining: " +:+ str (size (trash (game a))) +:+
       " | Poop on floor: " +:+ str (size (poop (game a)))) a.

Definition create_rectangle (x1 y1 x2 y2 : Z) (fill outline : string)
  (a : App) : App :=
  set_canvas (canvas a ++ [Rectangle x1 y1 x2 y2 fill outline]) a.

Definition create_text (tx ty : Z) (text : string) (fill : option string)
  (fnt : font) (a : App) : App :=
  set_canvas (canvas a ++ [Text tx ty text fill fnt]) a.

Definition draw_tile (point : Point) (color icon : string) (a : App) : App :=
  let x1 := x point * CELL_SIZE + 4 in
  let y1 := y point * CELL_SIZE + 4 in
  let x2 := x1 + CELL_SIZE - 8 in
  let y2 := y1 + CELL_SIZE - 8 in
  let a := create_rectangle x1 y1 x2 y2 color "" a in
  create_text ((x1 + x2) `div` 2) ((y1 + y2) `div` 2) icon None
    ("Arial", 16, None)%string a.

(** The nested loop over [range(GRID_WIDTH)] and [range(GRID_HEIGHT)] runs
    through the cells in the order of [grid_points]; the loops over
    [self.trash] and [self.poop] follow the walks [wt] and [wp]. *)
Definition draw (wt wp : walk) (a : App) : App :=
  let a := set_canvas [] a in
  let a :=
    foldl (λ a p,
             let x1 := x p * CELL_SIZE in
             let y1 := y p * CELL_SIZE in
             let x2 := x1 + CELL_SIZE in
             let y2 := y1 + CELL_SIZE in
             create_rectangle x1 y1 x2 y2 COLOR_BG COLOR_GRID a)
          a (grid_points cfg) in
  let a := foldl (λ a tile, draw_tile tile COLOR_TRASH "🗑" a)
                 a (wt (trash (game a))) in
  let a := foldl (λ a tile, draw_tile tile COLOR_POOP "💩" a)
                 a (wp (poop (game a))) in
  let a := draw_tile (player (game a)) COLOR_ROOMBA "🤖" a in
  if game_over (game a) then
    let message :=
      if victory (game a) then "ALL CLEAN!"%string else "GAME OVER"%string in
    create_text ((GRID_WIDTH cfg * CELL_SIZE) `div` 2)
                ((GRID_HEIGHT cfg * CELL_SIZE) `div` 2)
                message (Some "#111827"%string)
                ("Arial", 26, Some "bold")%string a
  else a.

(** [root.after(ms, self.poop_spawn_tick)] *)
Definition after (ms : Z) (a : App) : App :=
  set_timers (timers a ++ [ms]) a.

(** The methods with their widget updates.  What they do to the game is
    what the functions of the same name above do; [wt] and [wp] are the
    walks of the [draw] they end with. *)
Definition restart (rnd : nat → nat) (wt wp : walk) (a : App) : result App :=
  let! g := restart cfg rnd (game a) in
  Ok (draw wt wp (update_status (set_game g a))).

Definition handle_keypress (keysym : string) (rnd : nat → nat)
  (wt wp : walk) (a : App) : result App :=
  if game_over (game a) then
    if decide (lower keysym = "r")%string then restart rnd wt wp a else Ok a
  else
    match movement keysym with
    | None => Ok a
    | Some delta =>
        let a :=
          set_game (set_player (next_pos cfg (player (game a)) delta) (game a))
                   a in
        let! g := resolve_player_tile (game a) in
        Ok (draw wt wp (update_status (set_game g a)))
    end.

(** Inside the guarded branch the guard of the game-level tick holds as
    well, so it runs the spawn. *)
Definition poop_spawn_tick (roll : bool) (r : nat) (wt wp : walk) (a : App)
  : result App :=
  let! a :=
    if negb (game_over (game a)) && roll then
      let! g := poop_spawn_tick cfg roll r (game a) in
      Ok (draw wt wp (update_status (set_game g a)))
    else Ok a in
  Ok (after POOP_SPAWN_INTERVAL_MS a).

(** [__init__]: an empty status line and canvas, no timer yet. *)
Definition init (rnd : nat → nat) (wt wp : walk) : result App :=
  let a := mkApp (mkGame (center cfg) ∅ ∅ false false) "" [] [] in
  let! g := populate_trash cfg rnd (game a) in
  let a := set_game g a in
  let a := update_status a in
  let a := draw wt wp a in
  Ok (after POOP_SPAWN_INTERVAL_MS a).

(** [mainloop]: a key press can arrive at any time, a tick only when one of
    its timers is pending, and firing it uses that timer up. *)
Inductive reachable : App → Prop :=
  | reach_init rnd wt wp a :
      init rnd wt wp = Ok a → reachable a
  | reach_key keysym rnd wt wp a a' :
      reachable a → handle_keypress keysym rnd wt wp a = Ok a' → reachable a'
  | reach_tick roll r wt wp ms rest a a' :
      reachable a → timers a = ms :: rest →
      poop_spawn_tick roll r wt wp (set_timers rest a) = Ok a' → reachable a'.

End Widgets.
End Widgets.

(** ** Vocabulary for the statements *)

(** The cell a delta points at, before clamping. *)
Definition translate (p d : Point) : Point :=
  mkPoint (x p + x d) (y p + y d).

Definition opposite (d : Point) : Point :=
  mkPoint (- x d) (- y d).

(** A canvas item lies in the box from (x1, y1) to (x2, y2). *)
Definition item_within (x1 y1 x2 y2 : Z) (it : item) : Prop :=
  match it with
  | Rectangle a b c d _ _ => x1 ≤ a ∧ a ≤ c ∧ c ≤ x2 ∧ y1 ≤ b ∧ b ≤ d ∧ d ≤ y2
  | Text tx ty _ _ _ => x1 ≤ tx ∧ tx ≤ x2 ∧ y1 ≤ ty ∧ ty ≤ y2
  end.

(** The picture [draw] leaves on the canvas, written out, bottom layer
    first: one background rectangle per cell, a rectangle and an icon per
    trash tile in the order [ts], the same per poop tile in the order [ps],
    then the robot, and on top the overlay text of a finished game. *)
Definition grid_cell (p : Point) : item :=
  Rectangle (x p * CELL_SIZE) (y p * CELL_SIZE)
            (x p * CELL_SIZE + CELL_SIZE) (y p * CELL_SIZE + CELL_SIZE)
            COLOR_BG COLOR_GRID.

Definition tile_items (p : Point) (color icon : string) : list item :=
  [Rectangle (x p * CELL_SIZE + 4) (y p * CELL_SIZE + 4)
             (x p * CELL_SIZE + CELL_SIZE - 4) (y p * CELL_SIZE + CELL_SIZE - 4)
             color "";
   Text (x p * CELL_SIZE + CELL_SIZE `div` 2)
        (y p * CELL_SIZE + CELL_SIZE `div` 2)
        icon None ("Arial", 16, None)%string].

Definition overlay (cfg : Config) (g : Game) : list item :=
  if game_over g then
    [Text ((GRID_WIDTH cfg * CELL_SIZE) `div` 2)
          ((GRID_HEIGHT cfg * CELL_SIZE) `div` 2)
          (if victory g then "ALL CLEAN!" else "GAME OVER")%string
          (Some "#111827"%string) ("Arial", 26, Some "bold")%string]
  else [].

Definition picture (cfg : Config) (ts ps : list Point) (g : Game)
  : list item :=
  (p ← grid_points cfg; [grid_cell p]) ++
  (p ← ts; tile_items p COLOR_TRASH "🗑") ++
  (p ← ps; tile_items p COLOR_POOP "💩") ++
  tile_items (player g) COLOR_ROOMBA "🤖" ++
  overlay cfg g.

(** The text [update_status] shows for a game. *)
Definition status_line (g : Game) : string :=
  status_var (Widgets.update_status (mkApp g "" [] [])).

(** The application showing game [g], its tiles drawn in the orders [ts]
    and [ps], with the pending timers [t]. *)
Definition shown (cfg : Config) (ts ps : list Point) (g : Game) (t : list Z)
  : App :=
  mkApp g (status_line g) (picture cfg ts ps g) t.

(** [a] shows game [g] with the timers [t], its trash and poop tiles each
    drawn once, in some order. *)
Definition displays (cfg : Config) (a : App) (g : Game) (t : list Z) : Prop :=
  ∃ ts ps, ts ≡ₚ elements (trash g) ∧ ps ≡ₚ elements (poop g) ∧
           a = shown cfg ts ps g t.

(** The 3x3 sample game on screen, one tick scheduled. *)
Definition app33 : App :=
  shown board33 [mkPoint 0 1] [] start33 [POOP_SPAWN_INTERVAL_MS].

(** The sample game two ticks later, with poop on (0,0) and (1,0); the
    loop over the poop met (1,0) first. *)
Definition two_poop33 : Game :=
  mkGame (mkPoint 1 1) {[mkPoint 0 1]} {[mkPoint 0 0; mkPoint 1 0]}
         false false.

Definition app33_two_poop : App :=
  shown board33 [mkPoint 0 1] [mkPoint 1 0; mkPoint 0 0] two_poop33
        [POOP_SPAWN_INTERVAL_MS].

(** The live status line for given counts. *)
Definition live_line (n m : nat) : string :=
  "Trash remaining: " +:+ str n +:+ " | Poop on floor: " +:+ str m.

Fixpoint no_space (t : string) : Prop :=
  match t with
  | EmptyString => True
  | String c t' => c ≠ " "%char ∧ no_space t'
  end.

(** ** Facts about the list primitives *)

Section ListFacts.
Context {A : Type}.
Implicit Types l : list A.

Lemma swap_length i j l : length (swap i j l) = length l.
Proof.
  unfold swap. destruct (l !! i), (l !! j); try done.
  by rewrite !length_insert.
Qed.

Lemma swap_Permutation i j l : swap i j l ≡ₚ l.
Proof.
  unfold swap.
  destruct (l !! i) as [a|] eqn:Hi; [|done].
  destruct (l !! j) as [b|] eqn:Hj; [|done].
  pose proof (lookup_lt_Some _ _ _ Hi) as Hil.
  pose proof (lookup_lt_Some _ _ _ Hj) as Hjl.
  apply Permutation_inj. split; [by rewrite !length_insert|].
  exists (λ n, if decide (n = i) then j else if decide (n = j) then i else n).
  split.
  - intros n m. repeat case_decide; congruence.
  - intros n. destruct (decide (n = j)) as [->|Hnj].
    + rewrite list_lookup_insert_eq by (by rewrite length_insert).
      repeat case_decide; congruence.
    + rewrite list_lookup_insert_ne by done.
      destruct (decide (n = i)) as [->|Hni].
      * by rewrite list_lookup_insert_eq.
      * by rewrite list_lookup_insert_ne.
Qed.

Lemma shuffle_loop_Permutation rnd i l : shuffle_loop rnd i l ≡ₚ l.
Proof.
  revert l. induction i as [|i IH]; intros l; simpl; [done|].
  by rewrite IH, swap_Permutation.
Qed.

Lemma shuffle_Permutation rnd l : shuffle rnd l ≡ₚ l.
Proof. apply shuffle_loop_Permutation. Qed.

Lemma slice_to_sublist k l : slice_to k l `sublist_of` l.
Proof. unfold slice_to. case_match; apply sublist_take. Qed.

Lemma slice_to_length k l :
  0 ≤ k → length (slice_to k l) = Nat.min (Z.to_nat k) (length l).
Proof.
  intros Hk. unfold slice_to.
  destruct (Z.ltb_spec k 0); [lia|]. apply length_take.
Qed.

Lemma slice_to_all k l : Z.of_nat (length l) ≤ k → slice_to k l = l.
Proof.
  intros Hk. unfold slice_to.
  destruct (Z.ltb_spec k 0); [lia|]. apply take_ge. lia.
Qed.

Context `{!EqDecision A}.

Lemma py_list_remove_Ok x l :
  x ∈ l → ∃ l', py_list_remove x l = Ok l' ∧ l ≡ₚ x :: l'.
Proof.
  induction l as [|y l IH]; intros Hx; [by apply elem_of_nil in Hx|].
  simpl. case_decide as Hxy; [subst; eauto|].
  apply elem_of_cons in Hx as [?|Hx]; [done|].
  destruct (IH Hx) as (l' & -> & Hl'). simpl.
  eexists; split; [done|]. by rewrite Hl', Permutation_swap.
Qed.

Lemma py_list_remove_Raise x l :
  x ∉ l → py_list_remove x l = Raise ValueError.
Proof.
  induction l as [|y l IH]; intros Hx; [done|].
  apply not_elem_of_cons in Hx as [? Hx].
  simpl. case_decide; [done|]. by rewrite IH.
Qed.

Lemma random_choice_Ok r l :
  l ≠ [] → ∃ a, random_choice r l = Ok a ∧ a ∈ l.
Proof.
  intros Hl. unfold random_choice, randbelow.
  destruct (lookup_lt_is_Some_2 l (r mod length l)%nat) as [a Ha].
  { apply Nat.mod_upper_bound. by destruct l. }
  rewrite Ha. eauto using list_elem_of_lookup_2.
Qed.
End ListFacts.

(** ** Facts about the grid *)

Section GridFacts.
Variable cfg : Config.
Abbreviation GW := (GRID_WIDTH cfg).
Abbreviation GH := (GRID_HEIGHT cfg).

Lemma elem_of_grid_points p : p ∈ grid_points cfg ↔ in_grid cfg p.
Proof.
  unfold grid_points, in_grid, range. rewrite list_elem_of_bind. split.
  - intros (x & Hp & Hx). apply list_elem_of_bind in Hp as (y & Hp & Hy).
    apply list_elem_of_singleton in Hp as ->. simpl.
    apply elem_of_seqZ in Hx, Hy. lia.
  - intros [Hx Hy]. exists (x p). split; [|apply elem_of_seqZ; lia].
    apply list_elem_of_bind. exists (y p).
    split; [|apply elem_of_seqZ; lia].
    destruct p. simpl. apply list_elem_of_singleton. done.
Qed.

Lemma NoDup_grid_points : NoDup (grid_points cfg).
Proof.
  unfold grid_points, range. apply NoDup_bind; [| |apply NoDup_seqZ].
  - intros x1 x2 p _ _ H1 H2.
    apply list_elem_of_bind in H1 as (y1 & ->%list_elem_of_singleton & _).
    apply list_elem_of_bind in H2 as (y2 & [=]%list_elem_of_singleton & _).
    done.
  - intros x _. apply NoDup_bind; [| |apply NoDup_seqZ].
    + intros y1 y2 p _ _ ->%list_elem_of_singleton [=]%list_elem_of_singleton.
      done.
    + intros y _. apply NoDup_singleton.
Qed.

Lemma length_grid_points :
  length (grid_points cfg) = (Z.to_nat GW * Z.to_nat GH)%nat.
Proof.
  unfold grid_points, range.
  generalize (seqZ 0 GW) (length_seqZ 0 GW). intros xs <-.
  induction xs as [|x xs IH]; [done|]. csimpl.
  rewrite length_app, IH. f_equal.
  rewrite <-(length_seqZ 0 GH). generalize (seqZ 0 GH). intros ys.
  induction ys as [|y ys IHy]; [done|]. csimpl. by rewrite IHy.
Qed.

Lemma in_grid_center : 0 < GW → 0 < GH → in_grid cfg (center cfg).
Proof.
  intros HW HH. unfold in_grid, center. simpl.
  pose proof (Z.div_pos GW 2). pose proof (Z.div_pos GH 2).
  pose proof (Z.div_lt_upper_bound GW 2 GW).
  pose proof (Z.div_lt_upper_bound GH 2 GH). lia.
Qed.

Lemma in_grid_next_pos p d : 0 < GW → 0 < GH → in_grid cfg (next_pos cfg p d).
Proof. intros HW HH. unfold in_grid, next_pos. simpl. lia. Qed.
End GridFacts.

(** ** How each method transforms the state *)

Section Methods.
Variable cfg : Config.
Implicit Types s : Game.

Lemma populate_trash_Ok rnd s :
  in_grid cfg (player s) →
  ∃ avail,
    py_list_remove (player s) (grid_points cfg) = Ok avail ∧
    grid_points cfg ≡ₚ player s :: avail ∧
    populate_trash cfg rnd s =
      Ok (set_trash
            (list_to_set (slice_to (STARTING_TRASH cfg) (shuffle rnd avail)))
            s).
Proof.
  intros Hp%elem_of_grid_points.
  destruct (py_list_remove_Ok _ _ Hp) as (avail & Hrm & Hperm).
  exists avail. split_and!; [done..|].
  unfold populate_trash. by rewrite Hrm.
Qed.

Lemma populate_trash_Raise rnd s :
  ¬ in_grid cfg (player s) → populate_trash cfg rnd s = Raise ValueError.
Proof.
  rewrite <-elem_of_grid_points. intros Hp. unfold populate_trash.
  by rewrite py_list_remove_Raise.
Qed.

(** Whatever [populate_trash] returns only differs from its argument in
    [trash], which holds grid cells other than the player's. *)
Lemma populate_trash_frame rnd s s' :
  populate_trash cfg rnd s = Ok s' →
  player s' = player s ∧ poop s' = poop s ∧
  game_over s' = game_over s ∧ victory s' = victory s ∧
  ∀ p, p ∈ trash s' → in_grid cfg p ∧ p ≠ player s.
Proof.
  intros Hs'. destruct (decide (in_grid cfg (player s))) as [Hin|Hout].
  - destruct (populate_trash_Ok rnd s Hin) as (avail & _ & Hperm & Heq).
    rewrite Heq in Hs'. injection Hs' as <-. split_and!; try done.
    simpl. intros p Hp%elem_of_list_to_set.
    assert (p ∈ avail) as Hpa.
    { rewrite <-(shuffle_Permutation rnd avail).
      eapply elem_of_sublist; [done|apply slice_to_sublist]. }
    pose proof (NoDup_grid_points cfg) as Hnd. rewrite Hperm in Hnd.
    apply NoDup_cons in Hnd as [Hnotin _]. split.
    + apply elem_of_grid_points. rewrite Hperm. by right.
    + by intros ->.
  - by rewrite populate_trash_Raise in Hs'.
Qed.

Lemma resolve_player_tile_unfold s :
  resolve_player_tile s =
    Ok (if decide (player s ∈ poop s) then trigger_game_over s
        else if decide (player s ∈ trash s) then
          if decide (trash s ∖ {[player s]} = ∅)
          then set_game_over true
                 (set_victory true (set_trash (trash s ∖ {[player s]}) s))
          else set_trash (trash s ∖ {[player s]}) s
        else s).
Proof.
  unfold resolve_player_tile, py_set_remove.
  repeat (case_decide; simpl; try done).
Qed.

Lemma restart_unfold rnd s :
  restart cfg rnd s =
    populate_trash cfg rnd (mkGame (center cfg) ∅ ∅ false false).
Proof. done. Qed.

Lemma restart_frame rnd s s' :
  restart cfg rnd s = Ok s' →
  player s' = center cfg ∧ poop s' = ∅ ∧
  game_over s' = false ∧ victory s' = false ∧
  ∀ p, p ∈ trash s' → in_grid cfg p ∧ p ≠ center cfg.
Proof. rewrite restart_unfold. apply populate_trash_frame. Qed.

Lemma poop_spawn_tick_total roll r s :
  ∃ s', poop_spawn_tick cfg roll r s = Ok s'.
Proof.
  unfold poop_spawn_tick. case_match; [|eauto].
  case_match eqn:Hc; [eauto|].
  destruct (random_choice_Ok r (candidates cfg s))
    as (a & Ha & _); [by rewrite Hc|].
  rewrite <-Hc, Ha. simpl. case_decide; eauto.
Qed.

(** A tick either leaves the state alone or adds one free grid cell to
    [poop], ending the game when that cell is the player's. *)
Lemma poop_spawn_tick_cases roll r s s' :
  poop_spawn_tick cfg roll r s = Ok s' →
  s' = s ∨
  ∃ spawned,
    game_over s = false ∧ roll = true ∧ in_grid cfg spawned ∧
    (spawned ∉ poop s) ∧ (spawned ∉ trash s) ∧
    s' = (if decide (spawned = player s)
          then trigger_game_over (set_poop ({[spawned]} ∪ poop s) s)
          else set_poop ({[spawned]} ∪ poop s) s).
Proof.
  unfold poop_spawn_tick.
  destruct (game_over s) eqn:Hgo, roll; simpl; try (intros [= <-]; by left).
  destruct (candidates cfg s) as [|c cs] eqn:Hc; [intros [= <-]; by left|].
  destruct (random_choice_Ok r (c :: cs)) as (a & -> & Ha); [done|].
  rewrite <-Hc in Ha. simpl.
  apply list_elem_of_filter in Ha as [[??] ?%elem_of_grid_points].
  intros Hs'. right. exists a. split_and!; try done.
  case_decide; by injection Hs' as <-.
Qed.

Lemma handle_keypress_cases keysym rnd s s' :
  handle_keypress cfg keysym rnd s = Ok s' →
  s' = s ∨
  (game_over s = true ∧ restart cfg rnd s = Ok s') ∨
  (∃ delta, game_over s = false ∧ movement keysym = Some delta ∧
     resolve_player_tile (set_player (next_pos cfg (player s) delta) s)
       = Ok s').
Proof.
  unfold handle_keypress. destruct (game_over s).
  - case_decide; [by right; left|intros [= <-]; by left].
  - destruct (movement keysym) as [delta|]; [|intros [= <-]; by left].
    intros Hs'. right; right. by exists delta.
Qed.
End Methods.

(** ** The trash layout drawn by [populate_trash] *)

Section TrashLayout.
Variable cfg : Config.
Implicit Types s : Game.

Lemma available_facts x avail :
  grid_points cfg ≡ₚ x :: avail →
  NoDup avail ∧ S (length avail) = cells cfg ∧
  ∀ p, p ∈ avail ↔ in_grid cfg p ∧ p ≠ x.
Proof.
  intros Hperm.
  pose proof (NoDup_grid_points cfg) as Hnd. rewrite Hperm in Hnd.
  apply NoDup_cons in Hnd as [Hx Hnd]. split_and!; [done|..].
  - unfold cells. by rewrite <-length_grid_points, Hperm.
  - intros p. rewrite <-elem_of_grid_points, Hperm, elem_of_cons.
    split; [|intros [[?|?] ?]; done].
    intros Hp. split; [by right|]. by intros ->.
Qed.

Lemma populate_trash_size rnd s s' :
  0 ≤ STARTING_TRASH cfg →
  populate_trash cfg rnd s = Ok s' →
  size (trash s') = Nat.min (Z.to_nat (STARTING_TRASH cfg)) (cells cfg - 1).
Proof.
  intros Hk Hs'. destruct (decide (in_grid cfg (player s))) as [Hin|Hout];
    [|by rewrite populate_trash_Raise in Hs'].
  destruct (populate_trash_Ok cfg rnd s Hin) as (avail & _ & Hperm & Heq).
  rewrite Heq in Hs'. injection Hs' as <-. simpl.
  destruct (available_facts _ _ Hperm) as (Hnd & Hlen & _).
  rewrite size_list_to_set.
  - rewrite slice_to_length by done.
    rewrite (Permutation_length (shuffle_Permutation rnd avail)). lia.
  - eapply sublist_NoDup; [|apply slice_to_sublist].
    by rewrite shuffle_Permutation.
Qed.

(** With [STARTING_TRASH] at or above the number of free cells cfg the slice
    keeps the whole shuffled list. *)
Lemma populate_trash_saturated rnd s s' :
  Z.of_nat (cells cfg) - 1 ≤ STARTING_TRASH cfg →
  populate_trash cfg rnd s = Ok s' →
  ∀ p, p ∈ trash s' ↔ in_grid cfg p ∧ p ≠ player s.
Proof.
  intros Hk Hs'. destruct (decide (in_grid cfg (player s))) as [Hin|Hout];
    [|by rewrite populate_trash_Raise in Hs'].
  destruct (populate_trash_Ok cfg rnd s Hin) as (avail & _ & Hperm & Heq).
  rewrite Heq in Hs'. injection Hs' as <-. simpl.
  destruct (available_facts _ _ Hperm) as (_ & Hlen & Hmem).
  intros p. rewrite elem_of_list_to_set, slice_to_all, shuffle_Permutation.
  - apply Hmem.
  - rewrite (Permutation_length (shuffle_Permutation rnd avail)). lia.
Qed.

Lemma cells_Z :
  0 < GRID_WIDTH cfg → 0 < GRID_HEIGHT cfg →
  Z.of_nat (cells cfg) = GRID_WIDTH cfg * GRID_HEIGHT cfg.
Proof. intros. unfold cells. lia. Qed.
End TrashLayout.

(** ** What [restart] returns *)

(** When [STARTING_TRASH] fits the free cells, [restart] returns the same
    fresh game from every state: centre cell, no poop, flags clear and
    [STARTING_TRASH] distinct trash cells. *)
Lemma restart_fresh (cfg : Config) (rnd : nat → nat) (s : Game) :
  0 < GRID_WIDTH cfg → 0 < GRID_HEIGHT cfg →
  0 ≤ STARTING_TRASH cfg ≤ GRID_WIDTH cfg * GRID_HEIGHT cfg - 1 →
  ∃ s', restart cfg rnd s = Ok s' ∧
        game_over s' = false ∧ victory s' = false ∧
        player s' = mkPoint (GRID_WIDTH cfg `div` 2) (GRID_HEIGHT cfg `div` 2) ∧
        poop s' = ∅ ∧
        Z.of_nat (size (trash s')) = STARTING_TRASH cfg ∧
        (player s' ∉ trash s') ∧
        (∀ p, p ∈ trash s' → in_grid cfg p) ∧
        (∀ s0, restart cfg rnd s0 = Ok s').
Proof.
  intros HW HH Hk. rewrite restart_unfold.
  set (s0 := mkGame (center cfg) ∅ ∅ false false).
  destruct (populate_trash_Ok cfg rnd s0) as (avail & _ & _ & Heq);
    [by apply in_grid_center|].
  pose proof (populate_trash_frame cfg rnd s0 _ Heq)
    as (Hpl & Hpo & Hgo & Hv & Htr).
  pose proof (populate_trash_size cfg rnd s0 _ (proj1 Hk) Heq) as Hsz.
  pose proof (cells_Z cfg HW HH) as Hcells.
  eexists. split; [exact Heq|]. split_and!; try done.
  - rewrite Hsz. lia.
  - rewrite Hpl. intros Hin. by destruct (Htr _ Hin).
  - intros p Hin. by destruct (Htr _ Hin).
Qed.

(** With the constants of the class body: 14 x 14 cells, 24 pieces of
    trash, the robot on (7,7). *)
Lemma restart_class_constants (rnd : nat → nat) (s : Game) :
  ∃ s', restart class_config rnd s = Ok s' ∧
        game_over s' = false ∧ victory s' = false ∧
        player s' = mkPoint 7 7 ∧ poop s' = ∅ ∧
        size (trash s') = 24%nat ∧ (player s' ∉ trash s').
Proof.
  destruct (restart_fresh class_config rnd s)
    as (s' & ? & ? & ? & ? & ? & Hsz & ? & _); [simpl; lia..|].
  exists s'. split_and!; try done. simpl in Hsz. lia.
Qed.

(** A key press or a tick never raises on a board of positive size. *)
Lemma step_total (cfg : Config) (e : event) (s : Game) :
  0 < GRID_WIDTH cfg → 0 < GRID_HEIGHT cfg →
  ∃ s', step cfg e s = Ok s'.
Proof.
  intros HW HH. destruct e as [keysym rnd|roll r]; simpl.
  - unfold handle_keypress. destruct (game_over s).
    + case_decide; [|eauto]. rewrite restart_unfold.
      destruct (populate_trash_Ok cfg rnd (mkGame (center cfg) ∅ ∅ false false))
        as (? & _ & _ & ->); [by apply in_grid_center|eauto].
    + destruct (movement keysym); [|eauto].
      rewrite resolve_player_tile_unfold. eauto.
  - apply poop_spawn_tick_total.
Qed.

(** ** Invariants of the running game *)

Section Invariants.
Variable cfg : Config.
Implicit Types s : Game.

Lemma reachable_run es s s' :
  reachable cfg s → run cfg es s = Ok s' → reachable cfg s'.
Proof.
  revert s. induction es as [|e es IH]; intros s Hs; simpl.
  - by intros [= <-].
  - destruct (step cfg e s) as [s1|] eqn:He; [|done]. simpl.
    apply IH. destruct e; simpl in He.
    + by eapply reach_key.
    + by eapply reach_tick.
Qed.

Lemma reachable_play rnd es s : play cfg rnd es = Ok s → reachable cfg s.
Proof.
  unfold play. destruct (init cfg rnd) as [s0|] eqn:H0; [|done]. simpl.
  apply reachable_run. by eapply reach_init.
Qed.

(** A property of states that construction and [restart] establish and
    that every move and every spawn preserve holds in every reachable
    state. *)
Lemma reachable_ind_methods (P : Game → Prop) :
  (∀ rnd s s', restart cfg rnd s = Ok s' → P s') →
  (∀ s delta s',
      P s → game_over s = false →
      resolve_player_tile (set_player (next_pos cfg (player s) delta) s)
        = Ok s' →
      P s') →
  (∀ s spawned,
      P s → game_over s = false → in_grid cfg spawned →
      spawned ∉ poop s → spawned ∉ trash s →
      P (if decide (spawned = player s)
         then trigger_game_over (set_poop ({[spawned]} ∪ poop s) s)
         else set_poop ({[spawned]} ∪ poop s) s)) →
  ∀ s, reachable cfg s → P s.
Proof.
  intros Hrestart Hmove Hspawn s Hs.
  induction Hs as [rnd s Hi|keysym rnd s s' _ IH Hk|roll r s s' _ IH Ht
                  |rnd s s' _ _ Hr].
  - eapply (Hrestart rnd (mkGame (center cfg) ∅ ∅ false false)), Hi.
  - apply handle_keypress_cases in Hk
      as [->|[[_ Hr]|(delta & Hgo & _ & Hres)]]; eauto.
  - apply poop_spawn_tick_cases in Ht
      as [->|(spawned & Hgo & _ & Hin & Hp & Ht & ->)]; eauto.
  - eauto.
Qed.

Lemma reachable_disjoint s : reachable cfg s → trash s ## poop s.
Proof.
  revert s. apply reachable_ind_methods.
  - intros rnd s s' (_ & -> & _)%restart_frame. set_solver.
  - intros s delta s' Hd _. rewrite resolve_player_tile_unfold.
    intros [= <-]. simpl in *.
    assert (trash s ∖ {[next_pos cfg (player s) delta]} ## poop s)
      by (apply disjoint_difference_l2; done).
    repeat case_decide; done.
  - intros s spawned Hd _ _ Hp Ht.
    assert (trash s ## {[spawned]} ∪ poop s).
    { apply disjoint_union_r. split; [|done].
      by apply disjoint_singleton_r. }
    by case_decide.
Qed.

Lemma reachable_loss_on_poop s :
  reachable cfg s → game_over s = true → victory s = false →
  player s ∈ poop s.
Proof.
  revert s. apply (reachable_ind_methods
    (λ s, game_over s = true → victory s = false → player s ∈ poop s)).
  - intros rnd s s' (_ & _ & -> & _)%restart_frame. done.
  - intros s delta s' _ Hgo. rewrite resolve_player_tile_unfold.
    intros [= <-]. repeat case_decide; simpl; try done; congruence.
  - intros s spawned _ Hgo _ _ _. case_decide; simpl; [|congruence].
    set_solver.
Qed.

Lemma reachable_in_grid s :
  0 < GRID_WIDTH cfg → 0 < GRID_HEIGHT cfg →
  reachable cfg s → in_grid cfg (player s).
Proof.
  intros HW HH. revert s.
  apply (reachable_ind_methods (λ s, in_grid cfg (player s))).
  - intros rnd s s' (-> & _)%restart_frame. by apply in_grid_center.
  - intros s delta s' _ _. rewrite resolve_player_tile_unfold.
    intros [= <-].
    assert (in_grid cfg (next_pos cfg (player s) delta))
      by by apply in_grid_next_pos.
    repeat case_decide; done.
  - intros s spawned Hp _ _ _ _. by case_decide.
Qed.
End Invariants.

(** ** Facts about the key bindings *)

Lemma min_max_clamp v lo hi : lo ≤ hi → Z.min (Z.max v lo) hi = clamp v lo hi.
Proof.
  intros Hle. unfold clamp.
  destruct (Z.ltb_spec v lo), (Z.ltb_spec hi v); lia.
Qed.

Lemma movement_deltas keysym delta :
  movement keysym = Some delta → delta ∈ move_deltas.
Proof.
  unfold movement, move_deltas.
  repeat case_decide; intros [= <-]; set_solver.
Qed.

Lemma movement_key delta :
  delta ∈ move_deltas → ∃ keysym, movement keysym = Some delta.
Proof.
  unfold move_deltas. rewrite !elem_of_cons, elem_of_nil.
  intros [->|[->|[->|[->|[]]]]];
    [by exists "w"%string|by exists "s"%string
    |by exists "a"%string|by exists "d"%string].
Qed.

Lemma movement_not_restart keysym :
  is_Some (movement keysym) → lower keysym ≠ "r"%string.
Proof.
  unfold movement. repeat case_decide; subst; try done.
Qed.

(** ** Landing on a trash tile *)

(** What a move does when its destination holds trash and no poop. *)
Lemma resolve_on_trash
  (cfg : Config) (s : Game) (keysym : string) (rnd : nat → nat) (delta : Point) :
  game_over s = false →
  movement keysym = Some delta →
  next_pos cfg (player s) delta ∈ trash s →
  next_pos cfg (player s) delta ∉ poop s →
  ∃ s', handle_keypress cfg keysym rnd s = Ok s' ∧
        player s' = next_pos cfg (player s) delta ∧
        trash s' = trash s ∖ {[next_pos cfg (player s) delta]} ∧
        (next_pos cfg (player s) delta ∉ trash s') ∧
        poop s' = poop s ∧
        (trash s' = ∅ → game_over s' = true ∧ victory s' = true) ∧
        (trash s' ≠ ∅ → game_over s' = false ∧ victory s' = victory s).
Proof.
  intros Hgo Hmv Hin Hnp.
  unfold handle_keypress. rewrite Hgo, Hmv, resolve_player_tile_unfold.
  eexists. split; [done|]. simpl.
  rewrite decide_False, decide_True by done.
  case_decide as He; simpl; rewrite ?He;
    split_and!; try done; try apply not_elem_of_empty.
  apply not_elem_of_difference. right. by apply elem_of_singleton.
Qed.

(** ** The sample games evaluated *)

Lemma init_board33 : init board33 no_entropy = Ok start33.
Proof. vm_compute. reflexivity. Qed.

Lemma tick_board33 :
  poop_spawn_tick board33 true 2 start33 = Ok poop_above33.
Proof. vm_compute. reflexivity. Qed.

Lemma up_board33 :
  handle_keypress board33 "Up" no_entropy poop_above33 = Ok lost33.
Proof. vm_compute. reflexivity. Qed.

Lemma reachable_start33 : reachable board33 start33.
Proof. eapply reach_init, init_board33. Qed.

Lemma reachable_poop_above33 : reachable board33 poop_above33.
Proof. eapply reach_tick; [apply reachable_start33|apply tick_board33]. Qed.

Lemma reachable_lost33 : reachable board33 lost33.
Proof. eapply reach_key; [apply reachable_poop_above33|apply up_board33]. Qed.


(** ** The specified properties *)

(** C1. In every state the game can reach (construction, then any sequence
    of key presses, spawn ticks and restarts) no cell is both a trash tile and
    a poop tile. *)
Theorem trash_poop_never_overlap (cfg : Config) (s : Game) :
  reachable cfg s → trash s ∩ poop s = ∅ ∧ ∀ p, ¬ (p ∈ trash s ∧ p ∈ poop s).
Proof.
  intros Hd%reachable_disjoint. split.
  - by apply disjoint_intersection_L.
  - intros p [Ht Hp]. by apply (Hd p).
Qed.

Lemma trash_poop_never_overlap_witness :
  trash poop_above33 ∩ poop poop_above33 = ∅ ∧
  ∀ p, ¬ (p ∈ trash poop_above33 ∧ p ∈ poop poop_above33).
Proof.
  apply (trash_poop_never_overlap board33). apply reachable_poop_above33.
Defined.

(** C2. Once [game_over] is set, a press of any movement key and any spawn
    tick return normally and leave player, trash, poop and both flags as they
    were, and so does any sequence of them; only the R key leaves the
    terminal state, by running [restart]. *)
Theorem game_over_blocks_moves_and_spawns (cfg : Config) (s : Game) :
  game_over s = true →
  (∀ keysym rnd, is_Some (movement keysym) →
     handle_keypress cfg keysym rnd s = Ok s) ∧
  (∀ roll r, poop_spawn_tick cfg roll r s = Ok s) ∧
  (∀ es, Forall is_move_or_tick es → run cfg es s = Ok s) ∧
  (∀ keysym rnd, lower keysym = "r"%string →
     handle_keypress cfg keysym rnd s = restart cfg rnd s).
Proof.
  intros Hgo.
  assert (∀ keysym rnd, is_Some (movement keysym) →
            handle_keypress cfg keysym rnd s = Ok s) as Hkey.
  { intros keysym rnd Hm%movement_not_restart.
    unfold handle_keypress. rewrite Hgo. by case_decide. }
  assert (∀ roll r, poop_spawn_tick cfg roll r s = Ok s) as Htick.
  { intros roll r. unfold poop_spawn_tick. by rewrite Hgo. }
  split_and!; [done|done| |].
  - induction 1 as [|[keysym rnd|roll r] es He _ IH]; simpl; [done|..].
    + by rewrite Hkey.
    + by rewrite Htick.
  - intros keysym rnd Hr. unfold handle_keypress. rewrite Hgo.
    by case_decide.
Qed.

Lemma game_over_blocks_moves_and_spawns_witness :
  (∀ keysym rnd, is_Some (movement keysym) →
     handle_keypress board33 keysym rnd lost33 = Ok lost33) ∧
  (∀ roll r, poop_spawn_tick board33 roll r lost33 = Ok lost33) ∧
  (∀ es, Forall is_move_or_tick es → run board33 es lost33 = Ok lost33) ∧
  (∀ keysym rnd, lower keysym = "r"%string →
     handle_keypress board33 keysym rnd lost33 = restart board33 rnd lost33).
Proof.
  apply (game_over_blocks_moves_and_spawns board33 lost33). reflexivity.
Defined.

(** C3, as the code has it.  On a board of positive width and height
    construction never raises because of [STARTING_TRASH]: when the constant
    is at least the number of cells, the slice keeps what the shuffled list
    holds, and the trash set is every cell but the robot's, one less than
    the number of cells. *)
Theorem init_truncates_excess_trash (cfg : Config) (rnd : nat → nat) :
  0 < GRID_WIDTH cfg → 0 < GRID_HEIGHT cfg →
  GRID_WIDTH cfg * GRID_HEIGHT cfg ≤ STARTING_TRASH cfg →
  ∃ s, init cfg rnd = Ok s ∧
       (∀ p, p ∈ trash s ↔ in_grid cfg p ∧ p ≠ center cfg) ∧
       Z.of_nat (size (trash s)) = GRID_WIDTH cfg * GRID_HEIGHT cfg - 1.
Proof.
  intros HW HH Hk. unfold init.
  set (s0 := mkGame (center cfg) ∅ ∅ false false).
  destruct (populate_trash_Ok cfg rnd s0) as (avail & _ & _ & Heq);
    [by apply in_grid_center|].
  eexists. split; [exact Heq|].
  pose proof (cells_Z cfg HW HH) as Hcells. split.
  - apply (populate_trash_saturated cfg rnd s0); [lia|done].
  - rewrite (populate_trash_size cfg rnd s0 _) by (lia || done). lia.
Qed.

Lemma init_truncates_excess_trash_witness :
  ∃ s, init board22 no_entropy = Ok s ∧
       (∀ p, p ∈ trash s ↔ in_grid board22 p ∧ p ≠ center board22) ∧
       Z.of_nat (size (trash s)) = 2 * 2 - 1.
Proof.
  apply (init_truncates_excess_trash board22 no_entropy); simpl; lia.
Defined.

(** C3, as stated, fails: a 2x2 board with [STARTING_TRASH = 4] has as
    many pieces of trash configured as cells, yet construction returns a game
    with only three trash tiles instead of raising. *)
Lemma init_excess_trash_no_error :
  GRID_WIDTH board22 * GRID_HEIGHT board22 ≤ STARTING_TRASH board22 ∧
  init board22 no_entropy =
    Ok (mkGame (mkPoint 1 1)
               {[mkPoint 0 0; mkPoint 0 1; mkPoint 1 0]} ∅ false false) ∧
  (∀ e, init board22 no_entropy ≠ Raise e) ∧
  (∀ s, init board22 no_entropy = Ok s →
        Z.of_nat (size (trash s)) < STARTING_TRASH board22).
Proof.
  assert (init board22 no_entropy =
    Ok (mkGame (mkPoint 1 1)
               {[mkPoint 0 0; mkPoint 0 1; mkPoint 1 0]} ∅ false false)) as Hi
    by (vm_compute; reflexivity).
  split_and!; [simpl; lia|done|by rewrite Hi|].
  intros s. rewrite Hi. intros [= <-]. by vm_compute.
Qed.

(** C4. On a board of positive width and height the robot is inside the
    grid in every reachable state: construction and restart put it on the
    centre cell and every move is clamped. *)
Theorem player_stays_in_bounds (cfg : Config) (s : Game) :
  0 < GRID_WIDTH cfg → 0 < GRID_HEIGHT cfg →
  reachable cfg s →
  0 ≤ x (player s) < GRID_WIDTH cfg ∧ 0 ≤ y (player s) < GRID_HEIGHT cfg.
Proof. apply reachable_in_grid. Qed.

Lemma player_stays_in_bounds_witness :
  0 ≤ x (player lost33) < 3 ∧ 0 ≤ y (player lost33) < 3.
Proof.
  apply (player_stays_in_bounds board33 lost33);
    [reflexivity|reflexivity|apply reachable_lost33].
Defined.

(** C5. In every reachable state that is lost ([game_over] without
    [victory]) the robot stands on a poop tile. *)
Theorem lost_only_on_poop (cfg : Config) (s : Game) :
  reachable cfg s →
  game_over s = true → victory s = false →
  player s ∈ poop s.
Proof. apply reachable_loss_on_poop. Qed.

Lemma lost_only_on_poop_witness : player lost33 ∈ poop lost33.
Proof.
  apply (lost_only_on_poop board33 lost33);
    [apply reachable_lost33|reflexivity|reflexivity].
Defined.

(** C6. In a reachable state that is not terminal, a move whose clamped
    destination holds trash removes exactly that cell from the trash set; if
    the set is then empty the game is won ([game_over] and [victory] both
    set), otherwise play goes on. *)
Theorem move_onto_trash_cleans_it
  (cfg : Config) (s : Game) (keysym : string) (rnd : nat → nat) (delta : Point) :
  reachable cfg s →
  game_over s = false →
  movement keysym = Some delta →
  next_pos cfg (player s) delta ∈ trash s →
  ∃ s', handle_keypress cfg keysym rnd s = Ok s' ∧
        player s' = next_pos cfg (player s) delta ∧
        trash s' = trash s ∖ {[next_pos cfg (player s) delta]} ∧
        (next_pos cfg (player s) delta ∉ trash s') ∧
        poop s' = poop s ∧
        (trash s' = ∅ → game_over s' = true ∧ victory s' = true) ∧
        (trash s' ≠ ∅ → game_over s' = false ∧ victory s' = victory s).
Proof.
  intros Hreach Hgo Hmv Hin.
  apply resolve_on_trash; [done..|].
  intros Hp. by apply (reachable_disjoint cfg s Hreach _ Hin).
Qed.

Lemma move_onto_trash_cleans_it_witness :
  ∃ s', handle_keypress board33 "Left" no_entropy start33 = Ok s' ∧
        player s' = mkPoint 0 1 ∧
        trash s' = trash start33 ∖ {[mkPoint 0 1]} ∧
        (mkPoint 0 1 ∉ trash s') ∧
        poop s' = poop start33 ∧
        (trash s' = ∅ → game_over s' = true ∧ victory s' = true) ∧
        (trash s' ≠ ∅ → game_over s' = false ∧ victory s' = victory start33).
Proof.
  apply (move_onto_trash_cleans_it board33 start33 "Left" no_entropy
           (mkPoint (-1) 0));
    [apply reachable_start33|reflexivity|reflexivity|by vm_compute].
Defined.

(** C7. In a state that is not terminal, when the tick's draw succeeds and
    [random.choice] picks the robot's own cell among the candidates, the cell
    becomes poop and the game is lost at once ([game_over] set, [victory]
    clear); the robot has not moved and the trash is untouched. *)
Theorem spawn_on_player_loses
  (cfg : Config) (s : Game) (roll : bool) (r : nat) :
  game_over s = false →
  roll = true →
  random_choice r (candidates cfg s) = Ok (player s) →
  ∃ s', poop_spawn_tick cfg roll r s = Ok s' ∧
        game_over s' = true ∧ victory s' = false ∧
        player s' = player s ∧
        poop s' = {[player s]} ∪ poop s ∧
        trash s' = trash s.
Proof.
  intros Hgo -> Hpick. unfold poop_spawn_tick. rewrite Hgo. simpl.
  destruct (candidates cfg s) as [|c cs] eqn:Hc; [done|].
  rewrite Hpick. simpl. rewrite decide_True by done. eauto 10.
Qed.

Lemma spawn_on_player_loses_witness :
  ∃ s', poop_spawn_tick board33 true 3 start33 = Ok s' ∧
        game_over s' = true ∧ victory s' = false ∧
        player s' = player start33 ∧
        poop s' = {[player start33]} ∪ poop start33 ∧
        trash s' = trash start33.
Proof.
  apply (spawn_on_player_loses board33 start33 true 3);
    [reflexivity|reflexivity|by vm_compute].
Defined.

(** C8. In a state that is not terminal, each of the four deltas is bound
    to a key, and pressing such a key stores the coordinate-wise clamp of
    player + delta into [0, W-1] x [0, H-1] as the new position and then
    resolves that tile: on poop the game is lost and nothing else changes; on
    trash without poop the tile is removed, and the game is won when it was
    the last one; on a free cell only the position changes.  The position is
    the clamped one in every case, game over included.  On a board of positive
    size the [min]/[max] expression is the clamp, and from (0,0) a move left
    or up stays on (0,0) and is resolved like any other. *)
Theorem move_clamps_then_resolves (cfg : Config) (s : Game) (delta : Point) :
  game_over s = false →
  delta ∈ move_deltas →
  (∃ keysym, movement keysym = Some delta) ∧
  (∀ keysym rnd, movement keysym = Some delta →
     handle_keypress cfg keysym rnd s =
       resolve_player_tile (set_player (next_pos cfg (player s) delta) s) ∧
     ∃ s', handle_keypress cfg keysym rnd s = Ok s' ∧
           player s' = next_pos cfg (player s) delta ∧
           (next_pos cfg (player s) delta ∈ poop s →
              s' = mkGame (next_pos cfg (player s) delta)
                          (trash s) (poop s) true false) ∧
           (next_pos cfg (player s) delta ∉ poop s →
            next_pos cfg (player s) delta ∈ trash s →
            trash s ∖ {[next_pos cfg (player s) delta]} = ∅ →
              s' = mkGame (next_pos cfg (player s) delta) ∅ (poop s)
                          true true) ∧
           (next_pos cfg (player s) delta ∉ poop s →
            next_pos cfg (player s) delta ∈ trash s →
            trash s ∖ {[next_pos cfg (player s) delta]} ≠ ∅ →
              s' = mkGame (next_pos cfg (player s) delta)
                          (trash s ∖ {[next_pos cfg (player s) delta]})
                          (poop s) false (victory s)) ∧
           (next_pos cfg (player s) delta ∉ poop s →
            next_pos cfg (player s) delta ∉ trash s →
              s' = mkGame (next_pos cfg (player s) delta)
                          (trash s) (poop s) false (victory s))) ∧
  (0 < GRID_WIDTH cfg → 0 < GRID_HEIGHT cfg →
     next_pos cfg (player s) delta =
       mkPoint (clamp (x (player s) + x delta) 0 (GRID_WIDTH cfg - 1))
               (clamp (y (player s) + y delta) 0 (GRID_HEIGHT cfg - 1)) ∧
     (player s = mkPoint 0 0 →
      delta = mkPoint (-1) 0 ∨ delta = mkPoint 0 (-1) →
      next_pos cfg (player s) delta = mkPoint 0 0)).
Proof.
  intros Hgo Hd. split_and!.
  - by apply movement_key.
  - intros keysym rnd Hmv. unfold handle_keypress. rewrite Hgo, Hmv.
    split; [done|]. rewrite resolve_player_tile_unfold.
    eexists. split; [done|].
    set (dest := next_pos cfg (player s) delta).
    cbn [player trash poop set_player].
    destruct (decide (dest ∈ poop s)) as [Hp|Hp].
    { split_and!; try done. }
    destruct (decide (dest ∈ trash s)) as [Ht|Ht].
    + destruct (decide (trash s ∖ {[dest]} = ∅)) as [He|He].
      * split_and!; try done. intros _ _ _.
        unfold set_game_over, set_victory, set_trash, set_player. simpl.
        by rewrite He.
      * split_and!; try done. intros _ _ _.
        unfold set_trash, set_player. simpl. by rewrite Hgo.
    + split_and!; try done. intros _ _.
      unfold set_player. simpl. by rewrite Hgo.
  - intros HW HH. split.
    + unfold next_pos. by rewrite !min_max_clamp by lia.
    + intros -> [->| ->]; unfold next_pos; simpl; f_equal; lia.
Qed.

Lemma move_clamps_then_resolves_witness :
  (∃ keysym, movement keysym = Some (mkPoint 0 (-1))) ∧
  (∀ keysym rnd, movement keysym = Some (mkPoint 0 (-1)) →
     handle_keypress board33 keysym rnd poop_above33 =
       resolve_player_tile
         (set_player (next_pos board33 (player poop_above33) (mkPoint 0 (-1)))
            poop_above33) ∧
     ∃ s', handle_keypress board33 keysym rnd poop_above33 = Ok s' ∧
           player s' = next_pos board33 (player poop_above33) (mkPoint 0 (-1)) ∧
           (next_pos board33 (player poop_above33) (mkPoint 0 (-1))
              ∈ poop poop_above33 →
              s' = mkGame
                     (next_pos board33 (player poop_above33) (mkPoint 0 (-1)))
                     (trash poop_above33) (poop poop_above33) true false) ∧
           (next_pos board33 (player poop_above33) (mkPoint 0 (-1))
              ∉ poop poop_above33 →
            next_pos board33 (player poop_above33) (mkPoint 0 (-1))
              ∈ trash poop_above33 →
            trash poop_above33
              ∖ {[next_pos board33 (player poop_above33) (mkPoint 0 (-1))]}
              = ∅ →
              s' = mkGame
                     (next_pos board33 (player poop_above33) (mkPoint 0 (-1)))
                     ∅ (poop poop_above33) true true) ∧
           (next_pos board33 (player poop_above33) (mkPoint 0 (-1))
              ∉ poop poop_above33 →
            next_pos board33 (player poop_above33) (mkPoint 0 (-1))
              ∈ trash poop_above33 →
            trash poop_above33
              ∖ {[next_pos board33 (player poop_above33) (mkPoint 0 (-1))]}
              ≠ ∅ →
              s' = mkGame
                     (next_pos board33 (player poop_above33) (mkPoint 0 (-1)))
                     (trash poop_above33
                        ∖ {[next_pos board33 (player poop_above33)
                              (mkPoint 0 (-1))]})
                     (poop poop_above33) false (victory poop_above33)) ∧
           (next_pos board33 (player poop_above33) (mkPoint 0 (-1))
              ∉ poop poop_above33 →
            next_pos board33 (player poop_above33) (mkPoint 0 (-1))
              ∉ trash poop_above33 →
              s' = mkGame
                     (next_pos board33 (player poop_above33) (mkPoint 0 (-1)))
                     (trash poop_above33) (poop poop_above33)
                     false (victory poop_above33))) ∧
  (0 < GRID_WIDTH board33 → 0 < GRID_HEIGHT board33 →
     next_pos board33 (player poop_above33) (mkPoint 0 (-1)) =
       mkPoint
         (clamp (x (player poop_above33) + x (mkPoint 0 (-1))) 0
            (GRID_WIDTH board33 - 1))
         (clamp (y (player poop_above33) + y (mkPoint 0 (-1))) 0
            (GRID_HEIGHT board33 - 1)) ∧
     (player poop_above33 = mkPoint 0 0 →
      mkPoint 0 (-1) = mkPoint (-1) 0 ∨ mkPoint 0 (-1) = mkPoint 0 (-1) →
      next_pos board33 (player poop_above33) (mkPoint 0 (-1)) = mkPoint 0 0)).
Proof.
  apply (move_clamps_then_resolves board33 poop_above33 (mkPoint 0 (-1)));
    [reflexivity|].
  unfold move_deltas. rewrite !elem_of_cons. auto.
Defined.



(** C10. In a state that is not terminal, a move whose clamped destination
    holds poop ends the game as lost and changes nothing but the player
    position and the two flags: trash and poop are exactly what they were,
    also when the destination holds trash as well. *)
Theorem move_onto_poop_keeps_tiles
  (cfg : Config) (s : Game) (keysym : string) (rnd : nat → nat) (delta : Point) :
  game_over s = false →
  movement keysym = Some delta →
  next_pos cfg (player s) delta ∈ poop s →
  ∃ s', handle_keypress cfg keysym rnd s = Ok s' ∧
        trash s' = trash s ∧ poop s' = poop s ∧
        player s' = next_pos cfg (player s) delta ∧
        game_over s' = true ∧ victory s' = false.
Proof.
  intros Hgo Hmv Hin.
  unfold handle_keypress. rewrite Hgo, Hmv, resolve_player_tile_unfold.
  eexists. split; [done|]. simpl. by rewrite decide_True.
Qed.

Lemma move_onto_poop_keeps_tiles_witness :
  ∃ s', handle_keypress board33 "w" no_entropy poop_above33 = Ok s' ∧
        trash s' = trash poop_above33 ∧ poop s' = poop poop_above33 ∧
        player s' = mkPoint 1 0 ∧
        game_over s' = true ∧ victory s' = false.
Proof.
  apply (move_onto_poop_keeps_tiles board33 poop_above33 "w" no_entropy
           (mkPoint 0 (-1)));
    [reflexivity|reflexivity|by vm_compute].
Defined.

(** * Further properties of the game *)

(** ** More sample games *)

Lemma left_board33 :
  handle_keypress board33 "Left" no_entropy start33 = Ok won33.
Proof. vm_compute. reflexivity. Qed.

Lemma reachable_won33 : reachable board33 won33.
Proof. eapply reach_key; [apply reachable_start33|apply left_board33]. Qed.

Lemma init_board30 : init board30 no_entropy = Ok start30.
Proof. vm_compute. reflexivity. Qed.

Lemma reachable_start30 : reachable board30 start30.
Proof. eapply reach_init, init_board30. Qed.

(** ** More about the list primitives *)

Lemma slice_to_length_Z {A} (k : Z) (l : list A) :
  Z.of_nat (length (slice_to k l)) =
    if k <? 0 then Z.max 0 (Z.of_nat (length l) + k)
    else Z.min k (Z.of_nat (length l)).
Proof.
  unfold slice_to. destruct (Z.ltb_spec k 0); rewrite length_take; lia.
Qed.

Lemma in_grid_center_inv (cfg : Config) :
  in_grid cfg (center cfg) → 0 < GRID_WIDTH cfg ∧ 0 < GRID_HEIGHT cfg.
Proof. unfold in_grid, center. simpl. lia. Qed.

(** X1. Construction succeeds exactly on a grid with cells.  With a width
    or height of zero or less, [available.remove] finds no centre cell and
    the constructor raises [ValueError]; it raises nothing else. *)
Theorem init_raises_iff_grid_empty (cfg : Config) (rnd : nat → nat) :
  ((∃ s, init cfg rnd = Ok s) ↔ 0 < GRID_WIDTH cfg ∧ 0 < GRID_HEIGHT cfg) ∧
  (init cfg rnd = Raise ValueError ↔
     ¬ (0 < GRID_WIDTH cfg ∧ 0 < GRID_HEIGHT cfg)) ∧
  (∀ e, init cfg rnd = Raise e → e = ValueError).
Proof.
  unfold init. set (s0 := mkGame (center cfg) ∅ ∅ false false).
  destruct (decide (in_grid cfg (center cfg))) as [Hin|Hout].
  - destruct (populate_trash_Ok cfg rnd s0 Hin) as (avail & _ & _ & ->).
    pose proof (in_grid_center_inv cfg Hin).
    split_and!; [split; eauto|split; [done|tauto]|done].
  - rewrite (populate_trash_Raise cfg rnd s0 Hout).
    assert (¬ (0 < GRID_WIDTH cfg ∧ 0 < GRID_HEIGHT cfg))
      by (intros [??]; by apply Hout, in_grid_center).
    split_and!; [split; [by intros [? [=]]|tauto]|done|by intros e [= <-]].
Qed.

(** X2. The number of trash tiles a new game starts with: for a
    non-negative [STARTING_TRASH] the smaller of it and the free cells; for a
    negative one the slice drops that many cells from the end of the shuffled
    list, down to none. *)
Theorem init_trash_count (cfg : Config) (rnd : nat → nat) (s : Game) :
  init cfg rnd = Ok s →
  Z.of_nat (size (trash s)) =
    if STARTING_TRASH cfg <? 0
    then Z.max 0 (Z.of_nat (cells cfg) - 1 + STARTING_TRASH cfg)
    else Z.min (STARTING_TRASH cfg) (Z.of_nat (cells cfg) - 1).
Proof.
  unfold init. set (s0 := mkGame (center cfg) ∅ ∅ false false). intros Hs.
  destruct (decide (in_grid cfg (player s0))) as [Hin|Hout];
    [|by rewrite populate_trash_Raise in Hs].
  destruct (populate_trash_Ok cfg rnd s0 Hin) as (avail & _ & Hperm & Heq).
  rewrite Heq in Hs. injection Hs as <-. simpl.
  destruct (available_facts cfg _ _ Hperm) as (Hnd & Hlen & _).
  rewrite size_list_to_set.
  - rewrite slice_to_length_Z.
    rewrite (Permutation_length (shuffle_Permutation rnd avail)).
    replace (Z.of_nat (length avail)) with (Z.of_nat (cells cfg) - 1) by lia.
    done.
  - eapply sublist_NoDup; [|apply slice_to_sublist].
    by rewrite shuffle_Permutation.
Qed.

Lemma init_trash_count_witness :
  Z.of_nat (size (trash start33)) =
    if STARTING_TRASH board33 <? 0
    then Z.max 0 (Z.of_nat (cells board33) - 1 + STARTING_TRASH board33)
    else Z.min (STARTING_TRASH board33) (Z.of_nat (cells board33) - 1).
Proof.
  apply (init_trash_count board33 no_entropy start33), init_board33.
Defined.

(** ** More invariants *)

(** X3. In every reachable state [victory] implies [game_over] and an
    empty trash set. *)
Theorem victory_means_all_clean (cfg : Config) (s : Game) :
  reachable cfg s → victory s = true → game_over s = true ∧ trash s = ∅.
Proof.
  revert s. apply (reachable_ind_methods cfg
    (λ s, victory s = true → game_over s = true ∧ trash s = ∅)).
  - intros rnd s s' (_ & _ & _ & -> & _)%restart_frame. done.
  - intros s delta s' IH Hgo. rewrite resolve_player_tile_unfold.
    intros [= <-]. repeat case_decide; simpl; try done.
    intros Hv. destruct (IH Hv). congruence.
  - intros s spawned IH Hgo _ _ _. case_decide; simpl; [done|].
    intros Hv. destruct (IH Hv). congruence.
Qed.

Lemma victory_means_all_clean_witness :
  game_over won33 = true ∧ trash won33 = ∅.
Proof.
  apply (victory_means_all_clean board33 won33);
    [apply reachable_won33|reflexivity].
Defined.

(** X4. In every reachable state the robot's cell holds no trash, and
    while the game is running it holds no poop either. *)
Theorem player_cell_is_clear (cfg : Config) (s : Game) :
  reachable cfg s →
  (player s ∉ trash s) ∧ (game_over s = false → player s ∉ poop s).
Proof.
  intros Hs. pose proof (reachable_disjoint cfg s Hs) as Hd. revert s Hs Hd.
  apply (reachable_ind_methods cfg
    (λ s, trash s ## poop s →
          (player s ∉ trash s) ∧ (game_over s = false → player s ∉ poop s))).
  - intros rnd s s' (-> & -> & _ & _ & Htr)%restart_frame _.
    split; [|intros _; apply not_elem_of_empty].
    intros Hin. by destruct (Htr _ Hin).
  - intros s delta s' _ _. rewrite resolve_player_tile_unfold.
    set (dest := next_pos cfg (player s) delta). simpl.
    intros [= <-] Hd.
    destruct (decide (dest ∈ poop s)) as [Hp|Hp]; simpl in *.
    { split; [|done]. intros Hin. by apply (Hd dest). }
    destruct (decide (dest ∈ trash s)) as [Ht|Ht]; simpl in *; [|done].
    assert (dest ∉ trash s ∖ {[dest]}).
    { apply not_elem_of_difference. right. by apply elem_of_singleton. }
    by case_decide.
  - intros s spawned IH Hgo _ Hp Ht Hd.
    assert (trash s ## poop s) as Hd0.
    { intros p Hpt Hpp. apply (Hd p).
      - by case_decide.
      - case_decide; simpl; apply elem_of_union; by right. }
    destruct (IH Hd0) as [Hpt Hpp].
    case_decide as Heq; simpl; (split; [done|]); [done|].
    intros _ [Hin%elem_of_singleton|Hin]%elem_of_union; [done|].
    by apply Hpp.
Qed.

Lemma player_cell_is_clear_witness :
  (player poop_above33 ∉ trash poop_above33) ∧
  (game_over poop_above33 = false → player poop_above33 ∉ poop poop_above33).
Proof.
  apply (player_cell_is_clear board33 poop_above33).
  apply reachable_poop_above33.
Defined.

Lemma reachable_tiles_in_grid (cfg : Config) (s : Game) :
  reachable cfg s →
  (∀ p, p ∈ trash s → in_grid cfg p) ∧ (∀ p, p ∈ poop s → in_grid cfg p).
Proof.
  revert s. apply (reachable_ind_methods cfg
    (λ s, (∀ p, p ∈ trash s → in_grid cfg p) ∧
          (∀ p, p ∈ poop s → in_grid cfg p))).
  - intros rnd s s' (_ & -> & _ & _ & Htr)%restart_frame. split.
    + intros p Hin. by destruct (Htr _ Hin).
    + intros p Hin. by apply not_elem_of_empty in Hin.
  - intros s delta s' [Ht Hp] _. rewrite resolve_player_tile_unfold.
    intros [= <-]. repeat case_decide; simpl; split; try done;
      intros p [Hin _]%elem_of_difference; by apply Ht.
  - intros s spawned [Ht Hp] _ Hin _ _.
    case_decide; simpl; (split; [done|]);
      intros p [->%elem_of_singleton|Hq]%elem_of_union; auto.
Qed.

(** X5. In every reachable state all trash and all poop tiles are cells of
    the grid, and together they never outnumber the cells. *)
Theorem tiles_fit_the_grid (cfg : Config) (s : Game) :
  reachable cfg s →
  (∀ p, p ∈ trash s ∪ poop s → in_grid cfg p) ∧
  (size (trash s) + size (poop s) ≤ cells cfg)%nat.
Proof.
  intros Hs. destruct (reachable_tiles_in_grid cfg s Hs) as [Ht Hp].
  split; [intros p [?|?]%elem_of_union; auto|].
  rewrite <-size_union by by apply reachable_disjoint with cfg.
  unfold cells. rewrite <-length_grid_points.
  rewrite <-(size_list_to_set (C := gset Point)) by apply NoDup_grid_points.
  apply subseteq_size. intros p Hin.
  apply elem_of_list_to_set, elem_of_grid_points.
  apply elem_of_union in Hin as [?|?]; auto.
Qed.

Lemma tiles_fit_the_grid_witness :
  (∀ p, p ∈ trash poop_above33 ∪ poop poop_above33 → in_grid board33 p) ∧
  (size (trash poop_above33) + size (poop poop_above33) ≤ cells board33)%nat.
Proof.
  apply (tiles_fit_the_grid board33 poop_above33).
  apply reachable_poop_above33.
Defined.

Lemma poop_spawn_tick_spawns (cfg : Config) (r : nat) (s : Game) :
  game_over s = false → candidates cfg s ≠ [] →
  ∃ spawned,
    spawned ∈ candidates cfg s ∧
    poop_spawn_tick cfg true r s =
      Ok (if decide (spawned = player s)
          then trigger_game_over (set_poop ({[spawned]} ∪ poop s) s)
          else set_poop ({[spawned]} ∪ poop s) s).
Proof.
  intros Hgo Hne. unfold poop_spawn_tick. rewrite Hgo. simpl.
  destruct (random_choice_Ok r (candidates cfg s) Hne) as (a & Ha & Hin).
  destruct (candidates cfg s) as [|c cs] eqn:Hc; [done|].
  rewrite Ha. simpl. exists a. split; [done|]. by case_decide.
Qed.

(** X6. While the game is running on a board of positive size the board is
    never saturated: the robot's own cell is always free, so a tick whose
    draw succeeds always adds exactly one new poop tile. *)
Theorem successful_draw_always_spawns (cfg : Config) (r : nat) (s : Game) :
  0 < GRID_WIDTH cfg → 0 < GRID_HEIGHT cfg →
  reachable cfg s → game_over s = false →
  player s ∈ candidates cfg s ∧
  ∃ s' spawned,
    poop_spawn_tick cfg true r s = Ok s' ∧
    in_grid cfg spawned ∧ (spawned ∉ poop s) ∧ (spawned ∉ trash s) ∧
    poop s' = {[spawned]} ∪ poop s ∧
    size (poop s') = S (size (poop s)) ∧
    (game_over s' = true ↔ spawned = player s).
Proof.
  intros HW HH Hs Hgo.
  destruct (player_cell_is_clear cfg s Hs) as [Hnt Hnp].
  assert (player s ∈ candidates cfg s) as Hcand.
  { apply list_elem_of_filter. split; [by auto|].
    by apply elem_of_grid_points, reachable_in_grid. }
  split; [done|].
  destruct (poop_spawn_tick_spawns cfg r s Hgo) as (spawned & Hin & ->).
  { intros Hnil. rewrite Hnil in Hcand. by apply elem_of_nil in Hcand. }
  apply list_elem_of_filter in Hin as [[Hp Ht] Hg%elem_of_grid_points].
  eexists _, spawned. split; [done|].
  assert (size ({[spawned]} ∪ poop s) = S (size (poop s))) as Hsz.
  { rewrite size_union by by apply disjoint_singleton_l.
    by rewrite size_singleton. }
  case_decide; simpl; split_and!; try done; split; congruence.
Qed.

Lemma successful_draw_always_spawns_witness :
  player start33 ∈ candidates board33 start33 ∧
  ∃ s' spawned,
    poop_spawn_tick board33 true 5 start33 = Ok s' ∧
    in_grid board33 spawned ∧
    (spawned ∉ poop start33) ∧ (spawned ∉ trash start33) ∧
    poop s' = {[spawned]} ∪ poop start33 ∧
    size (poop s') = S (size (poop start33)) ∧
    (game_over s' = true ↔ spawned = player start33).
Proof.
  apply (successful_draw_always_spawns board33 5 start33);
    [reflexivity|reflexivity|apply reachable_start33|reflexivity].
Defined.

(** X7. With at least one piece of trash configured on a board of at
    least two cells, a running game always has trash left: the trash set
    only becomes empty together with [game_over]. *)
Theorem running_game_has_trash (cfg : Config) (s : Game) :
  0 < GRID_WIDTH cfg → 0 < GRID_HEIGHT cfg →
  2 ≤ GRID_WIDTH cfg * GRID_HEIGHT cfg → 1 ≤ STARTING_TRASH cfg →
  reachable cfg s → game_over s = false → trash s ≠ ∅.
Proof.
  intros HW HH Hcells Hk. revert s.
  apply (reachable_ind_methods cfg (λ s, game_over s = false → trash s ≠ ∅)).
  - intros rnd s s' Hr _ He.
    rewrite restart_unfold in Hr.
    pose proof (populate_trash_size cfg rnd _ _ ltac:(lia) Hr) as Hsz.
    pose proof (cells_Z cfg HW HH).
    rewrite He, size_empty in Hsz. lia.
  - intros s delta s' IH Hgo. rewrite resolve_player_tile_unfold.
    intros [= <-]. repeat case_decide; simpl; auto; done.
  - intros s spawned IH Hgo _ _ _. case_decide; simpl; auto; done.
Qed.

Lemma running_game_has_trash_witness :
  game_over poop_above33 = false ∧ trash poop_above33 ≠ ∅.
Proof.
  split; [reflexivity|].
  apply (running_game_has_trash board33 poop_above33);
    [reflexivity|reflexivity|by (simpl; lia)|by (simpl; lia)
    |apply reachable_poop_above33|reflexivity].
Defined.

(** X8. With [STARTING_TRASH = 0] there is never any trash and the game
    cannot be won: no reachable state has [victory] set. *)
Theorem no_trash_no_victory (cfg : Config) (s : Game) :
  STARTING_TRASH cfg = 0 →
  reachable cfg s → trash s = ∅ ∧ victory s = false.
Proof.
  intros Hk. revert s.
  apply (reachable_ind_methods cfg (λ s, trash s = ∅ ∧ victory s = false)).
  - intros rnd s s' Hr.
    destruct (restart_frame cfg rnd s s' Hr) as (_ & _ & _ & -> & _).
    rewrite restart_unfold in Hr.
    pose proof (populate_trash_size cfg rnd _ _ ltac:(lia) Hr) as Hsz.
    rewrite Hk in Hsz. simpl in Hsz.
    split; [|done]. by apply leibniz_equiv, size_empty_iff.
  - intros s delta s' [Ht Hv] _. rewrite resolve_player_tile_unfold.
    intros [= <-]. rewrite Ht.
    repeat case_decide; simpl; try done.
    all: match goal with Hin : _ ∈ ∅ |- _ => by apply not_elem_of_empty in Hin end.
  - intros s spawned [Ht Hv] _ _ _ _. by case_decide.
Qed.

Lemma no_trash_no_victory_witness :
  trash start30 = ∅ ∧ victory start30 = false.
Proof.
  apply (no_trash_no_victory board30 start30);
    [reflexivity|apply reachable_start30].
Defined.

(** ** What one event changes *)

(** X9. A key press in a running game never touches the poop and never
    adds trash: at most one trash tile goes, and only the one on the cell the
    robot ends up on. *)
Theorem keypress_only_cleans_under_robot
  (cfg : Config) (keysym : string) (rnd : nat → nat) (s s' : Game) :
  game_over s = false →
  handle_keypress cfg keysym rnd s = Ok s' →
  poop s' = poop s ∧
  trash s' ⊆ trash s ∧
  (∀ p, p ∈ trash s → p ∉ trash s' → p = player s') ∧
  (size (trash s) ≤ S (size (trash s')))%nat.
Proof.
  intros Hgo Hk.
  apply handle_keypress_cases in Hk as [->|[[? _]|(delta & _ & _ & Hres)]];
    [split_and!; try done; lia|congruence|].
  rewrite resolve_player_tile_unfold in Hres. injection Hres as <-.
  set (dest := next_pos cfg (player s) delta).
  assert (∀ p, p ∈ trash s → p ∉ trash s ∖ {[dest]} → p = dest) as Hgone.
  { intros p Hin Hout. destruct (decide (p = dest)); [done|].
    exfalso. apply Hout, elem_of_difference. split; [done|].
    by intros ?%elem_of_singleton. }
  assert (dest ∈ trash s →
          size (trash s) ≤ S (size (trash s ∖ {[dest]})))%nat as Hsz.
  { intros Hin. rewrite size_difference by by apply singleton_subseteq_l.
    rewrite size_singleton. lia. }
  assert (trash s ∖ {[dest]} ⊆ trash s) by apply subseteq_difference_l, reflexivity.
  repeat case_decide; simpl; split_and!; try done; auto; lia.
Qed.

Lemma keypress_only_cleans_under_robot_witness :
  poop won33 = poop start33 ∧
  trash won33 ⊆ trash start33 ∧
  (∀ p, p ∈ trash start33 → p ∉ trash won33 → p = player won33) ∧
  (size (trash start33) ≤ S (size (trash won33)))%nat.
Proof.
  apply (keypress_only_cleans_under_robot board33 "Left" no_entropy start33);
    [reflexivity|apply left_board33].
Defined.

(** X10. A spawn tick never moves the robot, never changes the trash and
    never sets [victory]; the poop set only grows, by at most one tile, and
    a tick whose draw fails changes nothing. *)
Theorem tick_only_adds_poop
  (cfg : Config) (roll : bool) (r : nat) (s s' : Game) :
  poop_spawn_tick cfg roll r s = Ok s' →
  player s' = player s ∧ trash s' = trash s ∧
  poop s ⊆ poop s' ∧ (size (poop s') ≤ S (size (poop s)))%nat ∧
  (victory s' = true → victory s = true) ∧
  (roll = false → s' = s).
Proof.
  intros Ht.
  apply poop_spawn_tick_cases in Ht
    as [->|(spawned & _ & -> & _ & Hp & _ & ->)];
    [split_and!; try done; lia|].
  assert (size ({[spawned]} ∪ poop s) = S (size (poop s))) as Hsz.
  { rewrite size_union by by apply disjoint_singleton_l.
    by rewrite size_singleton. }
  assert (poop s ⊆ {[spawned]} ∪ poop s) by apply union_subseteq_r.
  case_decide; simpl; split_and!; try done; lia.
Qed.

Lemma tick_only_adds_poop_witness :
  player poop_above33 = player start33 ∧
  trash poop_above33 = trash start33 ∧
  poop start33 ⊆ poop poop_above33 ∧
  (size (poop poop_above33) ≤ S (size (poop start33)))%nat ∧
  (victory poop_above33 = true → victory start33 = true) ∧
  (true = false → poop_above33 = start33).
Proof.
  apply (tick_only_adds_poop board33 true 2 start33 poop_above33).
  apply tick_board33.
Defined.

(** ** Key bindings *)

Lemma lower_r_not_movement (keysym : string) :
  lower keysym = "r"%string → movement keysym = None.
Proof.
  unfold movement. intros Hr. repeat case_decide; subst; done.
Qed.

(** X11. The restart key is ignored while the game is running, and so is
    every key outside the [movement] dict: the state stays as it is and
    nothing is raised. *)
Theorem unbound_keys_ignored_while_running
  (cfg : Config) (keysym : string) (rnd : nat → nat) (s : Game) :
  game_over s = false →
  lower keysym = "r"%string ∨ movement keysym = None →
  handle_keypress cfg keysym rnd s = Ok s.
Proof.
  intros Hgo Hkey.
  assert (movement keysym = None) as Hm
    by (destruct Hkey; [by apply lower_r_not_movement|done]).
  unfold handle_keypress. by rewrite Hgo, Hm.
Qed.

Lemma unbound_keys_ignored_while_running_witness :
  handle_keypress board33 "R" no_entropy start33 = Ok start33.
Proof.
  apply (unbound_keys_ignored_while_running board33 "R" no_entropy start33);
    [reflexivity|left; reflexivity].
Defined.

(** X12. The arrow keys and W, A, S, D are interchangeable: in every
    state, terminal or not, each arrow key has the effect of its letter.
    The letters are lower case; the capitals are not bound. *)
Theorem arrows_equal_wasd (cfg : Config) (rnd : nat → nat) (s : Game) :
  handle_keypress cfg "Up" rnd s = handle_keypress cfg "w" rnd s ∧
  handle_keypress cfg "Down" rnd s = handle_keypress cfg "s" rnd s ∧
  handle_keypress cfg "Left" rnd s = handle_keypress cfg "a" rnd s ∧
  handle_keypress cfg "Right" rnd s = handle_keypress cfg "d" rnd s ∧
  Forall (λ k, movement k = None) ["W"; "A"; "S"; "D"]%string.
Proof.
  unfold handle_keypress. destruct (game_over s); split_and!; try done;
    repeat constructor.
Qed.

(** ** Moving on the grid *)

Lemma move_deltas_cases (d : Point) :
  d ∈ move_deltas →
  d = mkPoint 0 (-1) ∨ d = mkPoint 0 1 ∨ d = mkPoint (-1) 0 ∨ d = mkPoint 1 0.
Proof.
  unfold move_deltas. rewrite !elem_of_cons, elem_of_nil. tauto.
Qed.

(** X13. From a cell of the grid a move goes exactly one cell in the
    direction of its delta when that cell exists, and stays put when it
    would leave the grid; it never goes anywhere else. *)
Theorem move_steps_one_cell_or_stays (cfg : Config) (p d : Point) :
  in_grid cfg p → d ∈ move_deltas →
  next_pos cfg p d =
    if decide (in_grid cfg (translate p d)) then translate p d else p.
Proof.
  intros [Hx Hy] Hd%move_deltas_cases. destruct p as [a b]. simpl in *.
  case_decide as Hin; unfold in_grid, translate, next_pos in *; simpl in *;
    destruct Hd as [->|[->|[->| ->]]]; simpl in *; f_equal; lia.
Qed.

Lemma move_steps_one_cell_or_stays_witness :
  next_pos board33 (mkPoint 2 1) (mkPoint 1 0) =
    if decide (in_grid board33 (translate (mkPoint 2 1) (mkPoint 1 0)))
    then translate (mkPoint 2 1) (mkPoint 1 0) else mkPoint 2 1.
Proof.
  apply (move_steps_one_cell_or_stays board33 (mkPoint 2 1) (mkPoint 1 0)).
  - unfold in_grid. simpl. lia.
  - unfold move_deltas. rewrite !elem_of_cons. auto.
Defined.

(** X14. A move that was not stopped by the edge is undone, as far as the
    position goes, by the move in the opposite direction. *)
Theorem opposite_move_returns (cfg : Config) (p d : Point) :
  in_grid cfg p → d ∈ move_deltas → in_grid cfg (translate p d) →
  opposite d ∈ move_deltas ∧
  next_pos cfg (next_pos cfg p d) (opposite d) = p.
Proof.
  intros [Hx Hy] Hd%move_deltas_cases [Hx' Hy']. destruct p as [a b].
  unfold move_deltas, opposite, translate, next_pos in *; simpl in *.
  rewrite !elem_of_cons.
  destruct Hd as [->|[->|[->| ->]]]; simpl in *;
    (split; [auto|f_equal; lia]).
Qed.

Lemma opposite_move_returns_witness :
  opposite (mkPoint 0 (-1)) ∈ move_deltas ∧
  next_pos board33 (next_pos board33 (mkPoint 1 1) (mkPoint 0 (-1)))
    (opposite (mkPoint 0 (-1))) = mkPoint 1 1.
Proof.
  apply (opposite_move_returns board33 (mkPoint 1 1) (mkPoint 0 (-1))).
  - unfold in_grid. simpl. lia.
  - unfold move_deltas. rewrite !elem_of_cons. auto.
  - unfold in_grid. simpl. lia.
Defined.

(** X15. How a move in a running game ends: it is lost exactly when the
    destination holds poop, and won exactly when the destination holds no
    poop and is the only trash tile left; in every other case the game goes
    on. *)
Theorem move_outcome
  (cfg : Config) (keysym : string) (rnd : nat → nat) (delta : Point)
  (s : Game) :
  game_over s = false → victory s = false →
  movement keysym = Some delta →
  ∃ s', handle_keypress cfg keysym rnd s = Ok s' ∧
        (game_over s' = true ∧ victory s' = false
           ↔ next_pos cfg (player s) delta ∈ poop s) ∧
        (victory s' = true
           ↔ (next_pos cfg (player s) delta ∉ poop s) ∧
             trash s = {[next_pos cfg (player s) delta]}) ∧
        (game_over s' = true
           ↔ next_pos cfg (player s) delta ∈ poop s ∨
             trash s = {[next_pos cfg (player s) delta]}).
Proof.
  intros Hgo Hv Hmv. unfold handle_keypress.
  rewrite Hgo, Hmv, resolve_player_tile_unfold. eexists. split; [done|].
  set (dest := next_pos cfg (player s) delta). simpl.
  assert (dest ∈ trash s → (trash s ∖ {[dest]} = ∅ ↔ trash s = {[dest]}))
    as Hone.
  { intros Hin. split.
    - intros He. apply leibniz_equiv. intros p. rewrite elem_of_singleton.
      split; [|by intros ->]. intros Hp.
      destruct (decide (p = dest)); [done|]. exfalso.
      apply (not_elem_of_empty (C := gset Point) p). rewrite <-He.
      apply elem_of_difference. split; [done|]. by rewrite elem_of_singleton.
    - intros ->. apply leibniz_equiv. intros p.
      rewrite elem_of_difference. split; [tauto|].
      by intros ?%not_elem_of_empty. }
  assert (dest ∉ trash s → trash s ≠ {[dest]}) as Hnone.
  { intros Hout He. apply Hout. rewrite He. by apply elem_of_singleton. }
  destruct (decide (dest ∈ poop s)) as [Hp|Hp]; simpl.
  { clear Hone Hnone. intuition congruence. }
  destruct (decide (dest ∈ trash s)) as [Ht|Ht]; simpl.
  - destruct (decide (trash s ∖ {[dest]} = ∅)) as [He|He]; simpl;
      rewrite ?Hgo, ?Hv.
    + apply Hone in He; [|done]. clear Hone Hnone. intuition congruence.
    + assert (trash s ≠ {[dest]}) by (intros ?; by apply He, Hone).
      clear Hone Hnone. intuition congruence.
  - specialize (Hnone Ht). rewrite Hgo, Hv. clear Hone. intuition congruence.
Qed.

Lemma move_outcome_witness :
  ∃ s', handle_keypress board33 "Up" no_entropy poop_above33 = Ok s' ∧
        (game_over s' = true ∧ victory s' = false
           ↔ next_pos board33 (player poop_above33) (mkPoint 0 (-1))
               ∈ poop poop_above33) ∧
        (victory s' = true
           ↔ (next_pos board33 (player poop_above33) (mkPoint 0 (-1))
               ∉ poop poop_above33) ∧
             trash poop_above33 =
               {[next_pos board33 (player poop_above33) (mkPoint 0 (-1))]}) ∧
        (game_over s' = true
           ↔ next_pos board33 (player poop_above33) (mkPoint 0 (-1))
               ∈ poop poop_above33 ∨
             trash poop_above33 =
               {[next_pos board33 (player poop_above33) (mkPoint 0 (-1))]}).
Proof.
  apply (move_outcome board33 "Up" no_entropy (mkPoint 0 (-1)) poop_above33);
    reflexivity.
Defined.

(** X16. On a board of positive size no key press and no tick ever
    raises, whatever the state: the guards in front of [set.remove] and
    [random.choice] hold, and [restart] finds the centre cell. *)
Theorem handlers_never_raise (cfg : Config) (e : event) (s : Game) :
  0 < GRID_WIDTH cfg → 0 < GRID_HEIGHT cfg →
  ∃ s', step cfg e s = Ok s'.
Proof. apply step_total. Qed.

Lemma handlers_never_raise_witness :
  ∃ s', step board33 (KeyPress "r" no_entropy) lost33 = Ok s'.
Proof.
  apply (handlers_never_raise board33 (KeyPress "r" no_entropy) lost33);
    reflexivity.
Defined.

(** * Properties of the widgets *)

(** ** The status line *)

Lemma update_status_eq (a : App) :
  Widgets.update_status a = set_status_var (status_line (game a)) a.
Proof.
  unfold status_line, Widgets.update_status. cbn [game].
  destruct (game_over (game a)), (victory (game a)); reflexivity.
Qed.

Lemma status_line_running (g : Game) :
  game_over g = false →
  status_line g = live_line (size (trash g)) (size (poop g)).
Proof.
  intros Hgo. unfold status_line, Widgets.update_status. cbn [game].
  rewrite Hgo. reflexivity.
Qed.

(** X17. The status line tells the outcome: it is the win message
    exactly when the game is won, the loss message exactly when it is lost,
    and in a running game the live count of trash and poop tiles. *)
Theorem status_line_tells_outcome (g : Game) :
  (status_line g = "You cleaned everything! Press R to play again."%string
     ↔ game_over g = true ∧ victory g = true) ∧
  (status_line g = "You hit poop. Game over! Press R to restart."%string
     ↔ game_over g = true ∧ victory g = false) ∧
  (status_line g = live_line (size (trash g)) (size (poop g))
     ↔ game_over g = false).
Proof.
  unfold status_line, Widgets.update_status, live_line. cbn [game].
  destruct (game_over g), (victory g);
    cbn [set_status_var status_var String.append];
    (split; [|split]); split; try done; try (intros [??]; done).
Qed.

Lemma no_space_pretty_N_go (n : N) (t : string) :
  no_space t → no_space (pretty_N_go n t).
Proof.
  revert t. induction (N.lt_wf_0 n) as [n _ IH]; intros t Ht.
  assert (n = 0 ∨ 0 < n)%N as [->|Hpos] by lia; [done|].
  rewrite pretty_N_go_step by done.
  apply IH; [by apply N.div_lt|]. split; [|done].
  unfold pretty_N_char. by repeat case_match.
Qed.

Lemma no_space_str (n : nat) : no_space (str n).
Proof.
  unfold str, pretty, pretty_nat, pretty, pretty_N.
  case_decide; [by split|]. by apply no_space_pretty_N_go.
Qed.

Lemma split_at_space (s1 s2 r1 r2 : string) :
  no_space s1 → no_space s2 →
  s1 +:+ String " " r1 = s2 +:+ String " " r2 →
  s1 = s2 ∧ r1 = r2.
Proof.
  revert s2. induction s1 as [|c s1 IH]; intros [|d s2]; simpl.
  - by intros _ _ [= ->].
  - intros _ [Hd _] [= <- _]. done.
  - intros [Hc _] _ [= -> _]. done.
  - intros [_ H1] [_ H2] [= -> Heq].
    destruct (IH s2 H1 H2 Heq) as [-> ->]. done.
Qed.

Lemma live_line_inj (n m n' m' : nat) :
  live_line n m = live_line n' m' → n = n' ∧ m = m'.
Proof.
  unfold live_line. cbn [String.append]. intros Heq.
  repeat injection Heq as Heq.
  pose proof (split_at_space (str n) (str n')
    ("| Poop on floor: " +:+ str m) ("| Poop on floor: " +:+ str m')
    (no_space_str n) (no_space_str n') Heq) as [Hn Hm].
  cbn [String.append] in Hm. repeat injection Hm as Hm.
  split; by apply (inj pretty).
Qed.

(** X18. The live status line shows the counts without ambiguity: two
    running games with the same status text have the same number of trash
    tiles and the same number of poop tiles. *)
Theorem status_line_shows_counts (g g' : Game) :
  game_over g = false → game_over g' = false →
  status_line g = status_line g' →
  size (trash g) = size (trash g') ∧ size (poop g) = size (poop g').
Proof.
  intros Hg Hg'. rewrite !status_line_running by done. apply live_line_inj.
Qed.

Lemma status_line_shows_counts_witness :
  size (trash start33) = size (trash start33) ∧
  size (poop start33) = size (poop start33).
Proof.
  apply (status_line_shows_counts start33 start33); reflexivity.
Defined.

(** ** The canvas *)

Lemma set_canvas_app_nil (a : App) : set_canvas (canvas a ++ []) a = a.
Proof. destruct a. unfold set_canvas. simpl. by rewrite app_nil_r. Qed.

(** A loop whose body appends items to the canvas appends the items of
    all its rounds, in order. *)
Lemma foldl_appends {A} (f : App → A → App) (items : A → list item)
    (l : list A) (a : App) :
  (∀ a p, f a p = set_canvas (canvas a ++ items p) a) →
  foldl f a l = set_canvas (canvas a ++ (l ≫= items)) a.
Proof.
  intros Hf. revert a. induction l as [|p l IH]; intros a; csimpl.
  - by rewrite set_canvas_app_nil.
  - rewrite IH, Hf. unfold set_canvas. simpl. by rewrite <-app_assoc.
Qed.

Lemma draw_tile_eq (p : Point) (color icon : string) (a : App) :
  Widgets.draw_tile p color icon a =
    set_canvas (canvas a ++ tile_items p color icon) a.
Proof.
  assert (∀ v, v * CELL_SIZE + 4 + CELL_SIZE - 8 = v * CELL_SIZE + CELL_SIZE - 4)
    as Hedge by (intros; lia).
  assert (∀ v, (v * CELL_SIZE + 4 + (v * CELL_SIZE + CELL_SIZE - 4)) `div` 2
               = v * CELL_SIZE + CELL_SIZE `div` 2) as Hmid.
  { intros v. unfold CELL_SIZE. Z.div_mod_to_equations. lia. }
  unfold Widgets.draw_tile, Widgets.create_text, Widgets.create_rectangle,
    tile_items, set_canvas. cbn [game status_var canvas timers].
  rewrite <-app_assoc, !Hedge, !Hmid. reflexivity.
Qed.

(** [draw] replaces the canvas by the picture of the game, its tiles in
    the order of the two walks, and touches nothing else. *)
Lemma draw_eq (cfg : Config) (wt wp : walk) (a : App) :
  Widgets.draw cfg wt wp a =
    set_canvas
      (picture cfg (wt (trash (game a))) (wp (poop (game a))) (game a)) a.
Proof.
  unfold Widgets.draw, picture. cbv zeta.
  rewrite (foldl_appends _ (λ p, [grid_cell p]) (grid_points cfg))
    by reflexivity.
  cbn [game set_canvas canvas].
  rewrite (foldl_appends _ (λ p, tile_items p COLOR_TRASH "🗑")
             (wt (trash (game a))))
    by (intros; apply draw_tile_eq).
  cbn [game set_canvas canvas].
  rewrite (foldl_appends _ (λ p, tile_items p COLOR_POOP "💩")
             (wp (poop (game a))))
    by (intros; apply draw_tile_eq).
  cbn [game set_canvas canvas].
  rewrite draw_tile_eq. cbn [game set_canvas canvas].
  unfold overlay, Widgets.create_text, set_canvas. cbn [game canvas].
  destruct (game_over (game a)); cbn [game status_var canvas timers];
    rewrite <-?app_assoc, ?app_nil_r; reflexivity.
Qed.

(** ** The application as a whole *)

Lemma refresh_eq (cfg : Config) (wt wp : walk) (g : Game) (a : App) :
  Widgets.draw cfg wt wp (Widgets.update_status (set_game g a)) =
    shown cfg (wt (trash g)) (wp (poop g)) g (timers a).
Proof. by rewrite draw_eq, update_status_eq. Qed.

Lemma refresh_displays (cfg : Config) (wt wp : walk) (g : Game) (a : App) :
  displays cfg (Widgets.draw cfg wt wp (Widgets.update_status (set_game g a)))
    g (timers a).
Proof.
  exists (wt (trash g)), (wp (poop g)).
  split_and!; [apply walk_perm..|apply refresh_eq].
Qed.

Lemma widgets_init_eq (cfg : Config) rnd (wt wp : walk) (a : App) :
  Widgets.init cfg rnd wt wp = Ok a →
  ∃ g, init cfg rnd = Ok g ∧ displays cfg a g [POOP_SPAWN_INTERVAL_MS].
Proof.
  unfold Widgets.init, init. cbn [game].
  destruct (populate_trash cfg rnd _) as [g|]; [|done]. simpl.
  intros [= <-]. exists g. split; [done|].
  destruct (refresh_displays cfg wt wp g
              (mkApp (mkGame (center cfg) ∅ ∅ false false) "" [] []))
    as (ts & ps & Hts & Hps & Heq).
  exists ts, ps. split_and!; [done..|].
  unfold Widgets.after. rewrite Heq. reflexivity.
Qed.

Lemma widgets_keypress_eq (cfg : Config) keysym rnd (wt wp : walk)
    (a a' : App) :
  Widgets.handle_keypress cfg keysym rnd wt wp a = Ok a' →
  ∃ g, handle_keypress cfg keysym rnd (game a) = Ok g ∧
       (a' = a ∧ g = game a ∨ displays cfg a' g (timers a)).
Proof.
  unfold Widgets.handle_keypress, handle_keypress, Widgets.restart.
  destruct (game_over (game a)).
  - case_decide.
    + destruct (restart cfg rnd (game a)) as [g|]; [|done]. simpl.
      intros [= <-]. exists g. split; [done|]. right.
      apply refresh_displays.
    + intros [= <-]. exists (game a). auto.
  - destruct (movement keysym) as [delta|].
    + cbn [game set_game].
      destruct (resolve_player_tile _) as [g|]; [|done]. simpl.
      intros [= <-]. exists g. split; [done|]. right.
      apply (refresh_displays cfg wt wp g (set_game _ a)).
    + intros [= <-]. exists (game a). auto.
Qed.

Lemma widgets_tick_eq (cfg : Config) roll r (wt wp : walk) (a a' : App) :
  Widgets.poop_spawn_tick cfg roll r wt wp a = Ok a' →
  ∃ g, poop_spawn_tick cfg roll r (game a) = Ok g ∧
       (a' = set_timers (timers a ++ [POOP_SPAWN_INTERVAL_MS]) a ∧ g = game a ∨
        displays cfg a' g (timers a ++ [POOP_SPAWN_INTERVAL_MS])).
Proof.
  unfold Widgets.poop_spawn_tick.
  destruct (negb (game_over (game a)) && roll) eqn:Hguard.
  - destruct (poop_spawn_tick cfg roll r (game a)) as [g|]; [|done]. simpl.
    intros [= <-]. exists g. split; [done|]. right.
    destruct (refresh_displays cfg wt wp g a) as (ts & ps & Hts & Hps & Heq).
    exists ts, ps. split_and!; [done..|].
    unfold Widgets.after. rewrite Heq. reflexivity.
  - simpl. intros [= <-]. exists (game a). split; [|auto].
    unfold poop_spawn_tick. by rewrite Hguard.
Qed.

(** What holds of the application in every state [mainloop] can reach. *)
Lemma widgets_invariant (cfg : Config) (a : App) :
  Widgets.reachable cfg a →
  displays cfg a (game a) [POOP_SPAWN_INTERVAL_MS] ∧ reachable cfg (game a).
Proof.
  induction 1 as [rnd wt wp a Hi|keysym rnd wt wp a a' _ [IHa IHg] Hk
                 |roll r wt wp ms rest a a' _ [IHa IHg] Htm Ht].
  - apply widgets_init_eq in Hi as (g & Hg & Hd).
    assert (game a = g) as -> by (by destruct Hd as (? & ? & _ & _ & ->)).
    split; [done|]. by eapply reach_init.
  - assert (timers a = [POOP_SPAWN_INTERVAL_MS]) as Htm
      by (by destruct IHa as (? & ? & _ & _ & ->)).
    apply widgets_keypress_eq in Hk as (g & Hg & [[-> ->]|Hd]); [done|].
    rewrite Htm in Hd.
    assert (game a' = g) as -> by (by destruct Hd as (? & ? & _ & _ & ->)).
    split; [done|]. by eapply reach_key.
  - assert (timers a = [POOP_SPAWN_INTERVAL_MS]) as Htm'
      by (by destruct IHa as (? & ? & _ & _ & ->)).
    rewrite Htm' in Htm. injection Htm as <- <-.
    apply widgets_tick_eq in Ht as (g & Hg & [[-> ->]|Hd]);
      cbn [game timers set_timers app] in *.
    + split; [|done].
      destruct IHa as (ts & ps & Hts & Hps & Heq). exists ts, ps.
      split_and!; [done..|]. rewrite Heq at 1. reflexivity.
    + assert (game a' = g) as -> by (by destruct Hd as (? & ? & _ & _ & ->)).
      split; [done|]. by eapply reach_tick.
Qed.

Lemma widgets_init_board33 :
  Widgets.init board33 no_entropy elements_walk elements_walk = Ok app33.
Proof. vm_compute. reflexivity. Qed.

Lemma reachable_app33 : Widgets.reachable board33 app33.
Proof. eapply Widgets.reach_init, widgets_init_board33. Qed.

Lemma reachable_app33_two_poop : Widgets.reachable board33 app33_two_poop.
Proof.
  eapply (Widgets.reach_tick board33 true 1 elements_walk reverse_walk
            POOP_SPAWN_INTERVAL_MS []
            (shown board33 [mkPoint 0 1] [mkPoint 0 0]
               (mkGame (mkPoint 1 1) {[mkPoint 0 1]} {[mkPoint 0 0]}
                       false false)
               [POOP_SPAWN_INTERVAL_MS])).
  - eapply (Widgets.reach_tick board33 true 0 elements_walk reverse_walk
              POOP_SPAWN_INTERVAL_MS [] app33).
    + apply reachable_app33.
    + reflexivity.
    + vm_compute. reflexivity.
  - reflexivity.
  - vm_compute. reflexivity.
Qed.

(** X19. What is on screen is never stale: in every state the
    application can reach, also after the key presses and ticks that return
    without redrawing, the status line is the one [update_status] gives for
    the current game, and the canvas is the picture [draw] gives for it: the
    cells, then every trash tile once, then every poop tile once, then the
    robot and the overlay, the tiles of each set in the order the loop met
    them.  A redraw that meets them in the same orders changes nothing. *)
Theorem display_in_sync (cfg : Config) (a : App) :
  Widgets.reachable cfg a →
  status_var a = status_line (game a) ∧
  ∃ ts ps,
    ts ≡ₚ elements (trash (game a)) ∧
    ps ≡ₚ elements (poop (game a)) ∧
    canvas a = picture cfg ts ps (game a) ∧
    ∀ wt wp : walk,
      wt (trash (game a)) = ts → wp (poop (game a)) = ps →
      Widgets.draw cfg wt wp (Widgets.update_status a) = a.
Proof.
  intros [(ts & ps & Hts & Hps & Ha) _]%widgets_invariant.
  destruct a as [g st cv tm]. unfold shown in Ha. cbn [game] in *.
  injection Ha as -> -> ->.
  split; [done|]. exists ts, ps. split_and!; [done..|].
  intros wt wp <- <-. rewrite draw_eq, update_status_eq. done.
Qed.

Lemma display_in_sync_witness :
  status_var app33_two_poop = status_line (game app33_two_poop) ∧
  ∃ ts ps,
    ts ≡ₚ elements (trash (game app33_two_poop)) ∧
    ps ≡ₚ elements (poop (game app33_two_poop)) ∧
    canvas app33_two_poop = picture board33 ts ps (game app33_two_poop) ∧
    ∀ wt wp : walk,
      wt (trash (game app33_two_poop)) = ts →
      wp (poop (game app33_two_poop)) = ps →
      Widgets.draw board33 wt wp (Widgets.update_status app33_two_poop)
        = app33_two_poop.
Proof.
  apply (display_in_sync board33 app33_two_poop), reachable_app33_two_poop.
Defined.

(** X20. Exactly one spawn timer is pending at any time: every tick
    schedules its successor, also when the game is over, and neither a key
    press nor a restart schedules another. *)
Theorem one_spawn_timer (cfg : Config) (a : App) :
  Widgets.reachable cfg a → timers a = [POOP_SPAWN_INTERVAL_MS].
Proof. by intros [(? & ? & _ & _ & ->) _]%widgets_invariant. Qed.

Lemma one_spawn_timer_witness : timers app33 = [POOP_SPAWN_INTERVAL_MS].
Proof. apply (one_spawn_timer board33 app33), reachable_app33. Defined.

(** X21. The widgets never interfere with the game: the game of every
    reachable application state is a reachable game state, so all the
    invariants of the game hold of what is on screen. *)
Theorem widgets_follow_game (cfg : Config) (a : App) :
  Widgets.reachable cfg a → reachable cfg (game a).
Proof. by intros [_ ?]%widgets_invariant. Qed.

Lemma widgets_follow_game_witness : reachable board33 (game app33).
Proof. apply (widgets_follow_game board33 app33), reachable_app33. Defined.

(** ** What the picture contains *)

Lemma length_bind_const {A B} (f : A → list B) (n : nat) (l : list A) :
  (∀ p, length (f p) = n) → length (l ≫= f) = (n * length l)%nat.
Proof.
  intros Hf. induction l as [|p l IH]; csimpl; [lia|].
  rewrite length_app, Hf, IH. lia.
Qed.

(** X22. [draw] starts from an empty canvas and leaves one rectangle per
    grid cell, a rectangle and an icon for every trash tile, every poop tile
    and the robot, and one more text when the game is over; nothing of the
    previous picture remains.  This holds in whatever order the sets are
    walked. *)
Theorem draw_item_count (cfg : Config) (wt wp : walk) (a : App) :
  length (canvas (Widgets.draw cfg wt wp a)) =
    (cells cfg + 2 * size (trash (game a)) + 2 * size (poop (game a)) + 2 +
     (if game_over (game a) then 1 else 0))%nat.
Proof.
  rewrite draw_eq. cbn [canvas set_canvas]. unfold picture, overlay.
  rewrite !length_app.
  rewrite (length_bind_const _ 1) by done.
  rewrite !(length_bind_const _ 2) by done.
  rewrite length_grid_points.
  rewrite (Permutation_length (walk_perm wt _)).
  rewrite (Permutation_length (walk_perm wp _)).
  unfold cells, size, set_size. simpl.
  destruct (game_over (game a)); simpl; lia.
Qed.

Lemma tile_items_within_cell (p : Point) (color icon : string) :
  Forall (item_within (x p * CELL_SIZE) (y p * CELL_SIZE)
            (x p * CELL_SIZE + CELL_SIZE) (y p * CELL_SIZE + CELL_SIZE))
         (tile_items p color icon).
Proof.
  unfold tile_items, CELL_SIZE. repeat constructor; simpl;
    try (Z.div_mod_to_equations; lia).
Qed.

Lemma within_cell_within_canvas (cfg : Config) (p : Point) (it : item) :
  in_grid cfg p →
  item_within (x p * CELL_SIZE) (y p * CELL_SIZE)
    (x p * CELL_SIZE + CELL_SIZE) (y p * CELL_SIZE + CELL_SIZE) it →
  item_within 0 0 (GRID_WIDTH cfg * CELL_SIZE) (GRID_HEIGHT cfg * CELL_SIZE) it.
Proof.
  unfold in_grid, CELL_SIZE. intros [Hx Hy]. destruct it; simpl; lia.
Qed.

(** X23. Every tile is drawn inside its own grid cell: [draw_tile] adds a
    rectangle 4 pixels inside the cell on every side and the icon at the
    centre of the cell, after whatever the canvas held. *)
Theorem tile_drawn_inside_own_cell
  (p : Point) (color icon : string) (a : App) :
  canvas (Widgets.draw_tile p color icon a) =
    canvas a ++
    [Rectangle (x p * CELL_SIZE + 4) (y p * CELL_SIZE + 4)
               ((x p + 1) * CELL_SIZE - 4) ((y p + 1) * CELL_SIZE - 4)
               color "";
     Text (x p * CELL_SIZE + 19) (y p * CELL_SIZE + 19) icon None
          ("Arial", 16, None)%string] ∧
  Forall (item_within (x p * CELL_SIZE) (y p * CELL_SIZE)
            ((x p + 1) * CELL_SIZE) ((y p + 1) * CELL_SIZE))
         (tile_items p color icon).
Proof.
  split.
  - rewrite draw_tile_eq. cbn [canvas set_canvas]. unfold tile_items.
    repeat f_equal; unfold CELL_SIZE; lia.
  - replace ((x p + 1) * CELL_SIZE) with (x p * CELL_SIZE + CELL_SIZE) by lia.
    replace ((y p + 1) * CELL_SIZE) with (y p * CELL_SIZE + CELL_SIZE) by lia.
    apply tile_items_within_cell.
Qed.

Lemma picture_within_canvas (cfg : Config) (ts ps : list Point) (g : Game) :
  0 < GRID_WIDTH cfg → 0 < GRID_HEIGHT cfg →
  in_grid cfg (player g) →
  (∀ p, p ∈ ts → in_grid cfg p) →
  (∀ p, p ∈ ps → in_grid cfg p) →
  Forall (item_within 0 0 (GRID_WIDTH cfg * CELL_SIZE)
            (GRID_HEIGHT cfg * CELL_SIZE))
         (picture cfg ts ps g).
Proof.
  intros HW HH Hpl Htr Hpo.
  assert (∀ p color icon, in_grid cfg p →
            Forall (item_within 0 0 (GRID_WIDTH cfg * CELL_SIZE)
                      (GRID_HEIGHT cfg * CELL_SIZE))
                   (tile_items p color icon)) as Htile.
  { intros p color icon Hin.
    eapply Forall_impl; [apply tile_items_within_cell|].
    intros it. by apply within_cell_within_canvas. }
  unfold picture. rewrite !Forall_app. split_and!.
  - apply Forall_bind, Forall_forall. intros p Hin%elem_of_grid_points.
    simpl. constructor; [|constructor].
    apply (within_cell_within_canvas cfg p); [done|].
    unfold grid_cell, CELL_SIZE. simpl. lia.
  - apply Forall_bind, Forall_forall. intros p Hin. simpl. auto.
  - apply Forall_bind, Forall_forall. intros p Hin. simpl. auto.
  - auto.
  - unfold overlay. destruct (game_over g); constructor; [|constructor].
    unfold CELL_SIZE. simpl. split_and!; Z.div_mod_to_equations; lia.
Qed.

(** X24. On a board of positive size nothing is ever drawn off the
    canvas: in every state the application can reach, each rectangle and
    each text anchor lies within the [GRID_WIDTH * CELL_SIZE] by
    [GRID_HEIGHT * CELL_SIZE] pixels of the canvas. *)
Theorem drawing_stays_on_canvas (cfg : Config) (a : App) :
  0 < GRID_WIDTH cfg → 0 < GRID_HEIGHT cfg →
  Widgets.reachable cfg a →
  Forall (item_within 0 0 (GRID_WIDTH cfg * CELL_SIZE)
            (GRID_HEIGHT cfg * CELL_SIZE))
         (canvas a).
Proof.
  intros HW HH Ha.
  destruct (widgets_invariant cfg a Ha) as [(ts & ps & Hts & Hps & Heq) Hg].
  rewrite Heq. cbn [canvas shown].
  destruct (reachable_tiles_in_grid cfg _ Hg) as [Htr Hpo].
  apply picture_within_canvas; try done.
  - by apply reachable_in_grid.
  - intros p Hin. apply Htr, elem_of_elements. by rewrite <-Hts.
  - intros p Hin. apply Hpo, elem_of_elements. by rewrite <-Hps.
Qed.

Lemma drawing_stays_on_canvas_witness :
  Forall (item_within 0 0 (GRID_WIDTH board33 * CELL_SIZE)
            (GRID_HEIGHT board33 * CELL_SIZE))
         (canvas app33).
Proof.
  apply (drawing_stays_on_canvas board33 app33);
    [reflexivity|reflexivity|apply reachable_app33].
Defined.
